(** * pictobox: cursor-based byte streams

    A shallow embedding of the two stream classes of the repository,
    [StreamIn] (the reader) and [StreamOut] (the writer), together with the
    part of the Node.js [Buffer] API they are written against, and the
    properties the specification states about them.

    Conventions.
    - A [Buffer] is a [list byte].  The classes never write through a view
      (the reader only reads, the writer rebuilds its buffer with
      [Buffer.concat]), so a view and a copy are indistinguishable here.
    - Cursor positions and lengths are integers ([Z]).  JavaScript adds
      them as binary64 numbers, and that sum is the exact integer sum as
      long as it is a safe integer, between [-2^53] and [2^53] ([Js.safe]);
      the methods below take the exact sum, and every property that lets
      the cursor leave its buffer carries the bound on the sum it speaks
      of.  A cursor within a buffer is always safe: no buffer is longer
      than [Buffer.kMaxLength], which is below [2^53].
    - [Buffer.alloc] refuses sizes above [Buffer.kMaxLength] as the platform
      does; memory running out below that limit is not modelled.
    - A value handed to a [writeX] method is a JavaScript number: a finite
      rational, [NaN] or an infinity.  The numbers the [readX] methods return
      are always integers and are given as [Z].
    - A method of a class is a computation in a state-and-exception monad over
      the object: it returns a completion (a value or a thrown error) and the
      object as the call left it.  What a method assigned before it threw
      stays assigned. *)

From Stdlib Require Import ZArith List Lia Bool QArith.
From Stdlib Require Import Strings.Byte.
Import ListNotations.

Close Scope Q_scope.
Open Scope Z_scope.

(** ** JavaScript numbers and the conversions the buffer methods apply *)

Module Js.

Inductive number : Type :=
| Num (q : Q)
| NaN
| Infinity
| NegInfinity.

(** An integer as a number. *)
Definition int (z : Z) : number := Num (inject_Z z).

(** [value > bound] and [value < bound] against an integer bound; every
    comparison with [NaN] is false. *)
Definition gt (value : number) (bound : Z) : bool :=
  match value with
  | Num q => negb (Qle_bool q (inject_Z bound))
  | NaN => false
  | Infinity => true
  | NegInfinity => false
  end.

Definition lt (value : number) (bound : Z) : bool :=
  match value with
  | Num q => negb (Qle_bool (inject_Z bound) q)
  | NaN => false
  | Infinity => false
  | NegInfinity => true
  end.

(** Rounding towards zero. *)
Definition trunc (q : Q) : Z := Z.quot (Qnum q) (Zpos (Qden q)).

(** [ToUint32] and [ToUint8] of ECMAScript: [NaN] and the infinities go to
    0, a finite number is truncated and reduced modulo the width.
    [wrap_int32] is the reduction [ToInt32] applies to an integer. *)
Definition ToUint32 (value : number) : Z :=
  match value with
  | Num q => trunc q mod 2 ^ 32
  | _ => 0
  end.

Definition wrap_int32 (z : Z) : Z :=
  let n := z mod 2 ^ 32 in
  if 2 ^ 31 <=? n then n - 2 ^ 32 else n.

Definition ToUint8 (value : number) : Z :=
  match value with
  | Num q => trunc q mod 2 ^ 8
  | _ => 0
  end.

(** [value >>> k]. *)
Definition ushr (value : number) (k : Z) : number :=
  int (Z.shiftr (ToUint32 value) k).

(** [x << k] on an integer [x]. *)
Definition shl (x k : Z) : Z := wrap_int32 (Z.shiftl (wrap_int32 x) k).


End Js.

(** ** Completions and the method monad *)

Inductive error : Type := RangeError.

Inductive completion (A : Type) : Type :=
| Normal (a : A)
| Throw (e : error).

Arguments Normal {A} a.
Arguments Throw {A} e.

Definition M (S A : Type) : Type := S -> completion A * S.

Definition ret {S A : Type} (a : A) : M S A := fun s => (Normal a, s).

Definition bind {S A B : Type} (m : M S A) (f : A -> M S B) : M S B :=
  fun s =>
    match m s with
    | (Normal a, s') => f a s'
    | (Throw e, s') => (Throw e, s')
    end.

(** A call into the buffer library: it may throw, it does not touch the
    object. *)
Definition lift {S A : Type} (c : completion A) : M S A := fun s => (c, s).

Notation "x <- m ;; k" := (bind m (fun x => k))
  (at level 61, m at next level, right associativity).

(** ** The buffer primitives

    The methods of Node.js's [Buffer] that the two classes call, with the
    behaviour of the platform: [alloc], [subarray] (with its index
    adjustment), [concat], and the integer readers and writers with their
    bounds checks. *)

Module Buffer.

Definition t : Type := list byte.

Definition length (b : t) : Z := Z.of_nat (List.length b).

Definition byte_of_Z (z : Z) : byte :=
  match Byte.of_N (Z.to_N z) with
  | Some b => b
  | None => x00
  end.

Definition Z_of_byte (b : byte) : Z := Z.of_N (Byte.to_N b).

(** [buffer.kMaxLength], the largest size of a buffer: [2^53 - 1] on
    64-bit platforms (earlier releases of the platform had smaller
    limits). *)
Definition kMaxLength : Z := 2 ^ 53 - 1.

(** [Buffer.alloc(size)]: a zero-filled buffer; a size that is negative or
    above [kMaxLength] is refused with a range error. *)
Definition alloc (size : Z) : completion t :=
  if (size <? 0) || (kMaxLength <? size) then Throw RangeError
  else Normal (repeat x00 (Z.to_nat size)).

(** The index adjustment of [subarray]: a negative index counts from the
    end, and the result is clamped to [0, length]. *)
Definition adjustOffset (offset length : Z) : Z :=
  if offset =? 0 then 0
  else if offset <? 0 then
    (if 0 <? offset + length then offset + length else 0)
  else if offset <? length then offset
  else length.

(** [buf.subarray(start, end)]; [end] defaults to the length. *)
Definition subarray (b : t) (start : Z) (end_ : option Z) : t :=
  let srcLength := length b in
  let start := adjustOffset start srcLength in
  let end_ := match end_ with
              | Some e => adjustOffset e srcLength
              | None => srcLength
              end in
  let newLength := if start <? end_ then end_ - start else 0 in
  firstn (Z.to_nat newLength) (skipn (Z.to_nat start) b).

(** [Buffer.concat(list)].  (The result is allocated with the total
    length, which stays below [kMaxLength] for buffers that exist.) *)
Definition concat (l : list t) : t := List.concat l.

(** The typed-array store [buf[i] = value]. *)
Definition store (value : Js.number) : byte := byte_of_Z (Js.ToUint8 value).

(** The integer writers, at their default offset 0.  Each one first checks
    the value against the bounds of its type, then that the buffer holds
    the bytes it is about to set, then stores the bytes. *)
Definition checkInt (value : Js.number) (min max : Z) : bool :=
  Js.gt value max || Js.lt value min.   (* true: the check throws *)

Definition writeU_Int8 (buf : t) (value : Js.number) (min max : Z)
  : completion t :=
  if checkInt value min max then Throw RangeError
  else match buf with
       | _ :: rest => Normal (store value :: rest)
       | _ => Throw RangeError
       end.

Definition writeU_Int16LE (buf : t) (value : Js.number) (min max : Z)
  : completion t :=
  if checkInt value min max then Throw RangeError
  else match buf with
       | _ :: _ :: rest =>
           Normal (store value :: store (Js.ushr value 8) :: rest)
       | _ => Throw RangeError
       end.

Definition writeU_Int16BE (buf : t) (value : Js.number) (min max : Z)
  : completion t :=
  if checkInt value min max then Throw RangeError
  else match buf with
       | _ :: _ :: rest =>
           Normal (store (Js.ushr value 8) :: store value :: rest)
       | _ => Throw RangeError
       end.

Definition writeU_Int32LE (buf : t) (value : Js.number) (min max : Z)
  : completion t :=
  if checkInt value min max then Throw RangeError
  else match buf with
       | _ :: _ :: _ :: _ :: rest =>
           let v1 := Js.ushr value 8 in
           let v2 := Js.ushr v1 8 in
           let v3 := Js.ushr v2 8 in
           Normal (store value :: store v1 :: store v2 :: store v3 :: rest)
       | _ => Throw RangeError
       end.

Definition writeU_Int32BE (buf : t) (value : Js.number) (min max : Z)
  : completion t :=
  if checkInt value min max then Throw RangeError
  else match buf with
       | _ :: _ :: _ :: _ :: rest =>
           let v1 := Js.ushr value 8 in
           let v2 := Js.ushr v1 8 in
           let v3 := Js.ushr v2 8 in
           Normal (store v3 :: store v2 :: store v1 :: store value :: rest)
       | _ => Throw RangeError
       end.

Definition writeUint8 (buf : t) (value : Js.number) : completion t :=
  writeU_Int8 buf value 0 0xff.

Definition writeUint16LE (buf : t) (value : Js.number) : completion t :=
  writeU_Int16LE buf value 0 0xffff.

Definition writeUint32LE (buf : t) (value : Js.number) : completion t :=
  writeU_Int32LE buf value 0 0xffffffff.

Definition writeInt32LE (buf : t) (value : Js.number) : completion t :=
  writeU_Int32LE buf value (- 0x80000000) 0x7fffffff.

Definition writeUint16BE (buf : t) (value : Js.number) : completion t :=
  writeU_Int16BE buf value 0 0xffff.

Definition writeUint32BE (buf : t) (value : Js.number) : completion t :=
  writeU_Int32BE buf value 0 0xffffffff.

(** The integer readers, at their default offset 0.  Each one fetches the
    first and the last byte of the field and throws when either is
    missing. *)
Definition readUint8 (buf : t) : completion Z :=
  match buf with
  | val :: _ => Normal (Z_of_byte val)
  | _ => Throw RangeError
  end.

Definition readUint16LE (buf : t) : completion Z :=
  match buf with
  | first :: last :: _ =>
      Normal (Z_of_byte first + Z_of_byte last * 2 ^ 8)
  | _ => Throw RangeError
  end.

Definition readUint32LE (buf : t) : completion Z :=
  match buf with
  | first :: b1 :: b2 :: last :: _ =>
      Normal (Z_of_byte first + Z_of_byte b1 * 2 ^ 8
              + Z_of_byte b2 * 2 ^ 16 + Z_of_byte last * 2 ^ 24)
  | _ => Throw RangeError
  end.

Definition readInt32LE (buf : t) : completion Z :=
  match buf with
  | first :: b1 :: b2 :: last :: _ =>
      Normal (Z_of_byte first + Z_of_byte b1 * 2 ^ 8
              + Z_of_byte b2 * 2 ^ 16 + Js.shl (Z_of_byte last) 24)
  | _ => Throw RangeError
  end.

Definition readUint16BE (buf : t) : completion Z :=
  match buf with
  | first :: last :: _ =>
      Normal (Z_of_byte first * 2 ^ 8 + Z_of_byte last)
  | _ => Throw RangeError
  end.

Definition readUint32BE (buf : t) : completion Z :=
  match buf with
  | first :: b1 :: b2 :: last :: _ =>
      Normal (Z_of_byte first * 2 ^ 24 + Z_of_byte b1 * 2 ^ 16
              + Z_of_byte b2 * 2 ^ 8 + Z_of_byte last)
  | _ => Throw RangeError
  end.

End Buffer.

(** ** The reader *)

Module StreamIn.

Record t : Type := mk { buffer : Buffer.t; pos : Z }.

Definition new (buffer : Buffer.t) : t := {| buffer := buffer; pos := 0 |}.

Definition hasData : M t bool :=
  fun this => (Normal (pos this <? Buffer.length (buffer this)), this).

Definition size : M t Z :=
  fun this => (Normal (Buffer.length (buffer this)), this).

(** [this.pos += length]; the sum is exact while it is [Js.safe]. *)
Definition skip (length : Z) : M t unit :=
  fun this =>
    (Normal tt, {| buffer := buffer this; pos := pos this + length |}).

Definition seek (pos : Z) : M t unit :=
  fun this => (Normal tt, {| buffer := buffer this; pos := pos |}).

(** The slice is taken before the cursor moves; [this.pos + length] is
    exact while it is [Js.safe]. *)
Definition readBytes (length : Z) : M t Buffer.t :=
  fun this =>
    let read :=
      Buffer.subarray (buffer this) (pos this) (Some (pos this + length)) in
    (Normal read, {| buffer := buffer this; pos := pos this + length |}).

Definition readUint8 : M t Z :=
  read <- readBytes 1 ;; lift (Buffer.readUint8 read).

Definition readUint16LE : M t Z :=
  read <- readBytes 2 ;; lift (Buffer.readUint16LE read).

Definition readUint32LE : M t Z :=
  read <- readBytes 4 ;; lift (Buffer.readUint32LE read).

Definition readInt32LE : M t Z :=
  read <- readBytes 4 ;; lift (Buffer.readInt32LE read).

Definition readUint16BE : M t Z :=
  read <- readBytes 2 ;; lift (Buffer.readUint16BE read).

Definition readUint32BE : M t Z :=
  read <- readBytes 4 ;; lift (Buffer.readUint32BE read).

End StreamIn.

(** ** The writer *)

Module StreamOut.

Record t : Type := mk { buffer : Buffer.t; pos : Z }.

Definition new : t := {| buffer := []; pos := 0 |}.

Definition bytes : M t Buffer.t := fun this => (Normal (buffer this), this).

Definition size : M t Z :=
  fun this => (Normal (Buffer.length (buffer this)), this).

Definition seek (pos : Z) : M t unit :=
  fun this => (Normal tt, {| buffer := buffer this; pos := pos |}).

(** [this.pos += bytes.length] is exact while it is [Js.safe]. *)
Definition writeBytes (bytes : Buffer.t) : M t unit :=
  fun this =>
    let before := Buffer.subarray (buffer this) 0 (Some (pos this)) in
    let after := Buffer.subarray (buffer this) (pos this) None in
    (Normal tt,
     {| buffer := Buffer.concat [before; bytes; after];
        pos := pos this + Buffer.length bytes |}).

Definition skip (length : Z) : M t unit :=
  zeros <- lift (Buffer.alloc length) ;; writeBytes zeros.

Definition writeUint8 (uint8 : Js.number) : M t unit :=
  bytes <- lift (Buffer.alloc 1) ;;
  bytes <- lift (Buffer.writeUint8 bytes uint8) ;;
  writeBytes bytes.

Definition writeUint16LE (uint16 : Js.number) : M t unit :=
  bytes <- lift (Buffer.alloc 2) ;;
  bytes <- lift (Buffer.writeUint16LE bytes uint16) ;;
  writeBytes bytes.

Definition writeUint32LE (uint32 : Js.number) : M t unit :=
  bytes <- lift (Buffer.alloc 4) ;;
  bytes <- lift (Buffer.writeUint32LE bytes uint32) ;;
  writeBytes bytes.

Definition writeInt32LE (int32 : Js.number) : M t unit :=
  bytes <- lift (Buffer.alloc 4) ;;
  bytes <- lift (Buffer.writeInt32LE bytes int32) ;;
  writeBytes bytes.

Definition writeUint16BE (uint16 : Js.number) : M t unit :=
  bytes <- lift (Buffer.alloc 2) ;;
  bytes <- lift (Buffer.writeUint16BE bytes uint16) ;;
  writeBytes bytes.

Definition writeUint32BE (uint32 : Js.number) : M t unit :=
  bytes <- lift (Buffer.alloc 4) ;;
  bytes <- lift (Buffer.writeUint32BE bytes uint32) ;;
  writeBytes bytes.

End StreamOut.

(** ** The six integer formats *)

Inductive format : Type :=
| Uint8 | Uint16LE | Uint32LE | Int32LE | Uint16BE | Uint32BE.

Definition width (f : format) : Z :=
  match f with
  | Uint8 => 1
  | Uint16LE | Uint16BE => 2
  | Uint32LE | Int32LE | Uint32BE => 4
  end.

(** The representable range of a format. *)
Definition lowest (f : format) : Z :=
  match f with
  | Int32LE => - 2 ^ 31
  | _ => 0
  end.

Definition highest (f : format) : Z :=
  match f with
  | Uint8 => 2 ^ 8 - 1
  | Uint16LE | Uint16BE => 2 ^ 16 - 1
  | Uint32LE | Uint32BE => 2 ^ 32 - 1
  | Int32LE => 2 ^ 31 - 1
  end.

Definition readX (f : format) : M StreamIn.t Z :=
  match f with
  | Uint8 => StreamIn.readUint8
  | Uint16LE => StreamIn.readUint16LE
  | Uint32LE => StreamIn.readUint32LE
  | Int32LE => StreamIn.readInt32LE
  | Uint16BE => StreamIn.readUint16BE
  | Uint32BE => StreamIn.readUint32BE
  end.

Definition writeX (f : format) : Js.number -> M StreamOut.t unit :=
  match f with
  | Uint8 => StreamOut.writeUint8
  | Uint16LE => StreamOut.writeUint16LE
  | Uint32LE => StreamOut.writeUint32LE
  | Int32LE => StreamOut.writeInt32LE
  | Uint16BE => StreamOut.writeUint16BE
  | Uint32BE => StreamOut.writeUint32BE
  end.


(** ** The byte layout of a value *)

(** The bytes of [v] in format [f], as the specification words it: least
    significant byte first for LE, most significant byte first for BE
    (division rounds down, so a negative [v] gives its two's complement). *)
Definition octet (v : Z) (i : Z) : byte :=
  Buffer.byte_of_Z ((v / 2 ^ (8 * i)) mod 2 ^ 8).

Definition layout (f : format) (v : Z) : Buffer.t :=
  match f with
  | Uint8 => [octet v 0]
  | Uint16LE => [octet v 0; octet v 1]
  | Uint16BE => [octet v 1; octet v 0]
  | Uint32LE | Int32LE => [octet v 0; octet v 1; octet v 2; octet v 3]
  | Uint32BE => [octet v 3; octet v 2; octet v 1; octet v 0]
  end.

(** The buffer-level codec behind each stream method. *)
Definition Buffer_write (f : format)
  : Buffer.t -> Js.number -> completion Buffer.t :=
  match f with
  | Uint8 => Buffer.writeUint8
  | Uint16LE => Buffer.writeUint16LE
  | Uint32LE => Buffer.writeUint32LE
  | Int32LE => Buffer.writeInt32LE
  | Uint16BE => Buffer.writeUint16BE
  | Uint32BE => Buffer.writeUint32BE
  end.

Definition Buffer_read (f : format) : Buffer.t -> completion Z :=
  match f with
  | Uint8 => Buffer.readUint8
  | Uint16LE => Buffer.readUint16LE
  | Uint32LE => Buffer.readUint32LE
  | Int32LE => Buffer.readInt32LE
  | Uint16BE => Buffer.readUint16BE
  | Uint32BE => Buffer.readUint32BE
  end.

(** Where [writeBytes] cuts the buffer: the adjusted cursor. *)
Definition cut (b : Buffer.t) (pos : Z) : nat :=
  Z.to_nat (Buffer.adjustOffset pos (Buffer.length b)).

(** ** Values the writers refuse *)

(** [value] lies below [min] or above [max]: what the bounds check of the
    integer writers tests.  [NaN] compares false with every bound. *)
Definition exceeds (value : Js.number) (min max : Z) : Prop :=
  match value with
  | Js.Num q => (q < inject_Z min)%Q \/ (inject_Z max < q)%Q
  | Js.NaN => False
  | Js.Infinity | Js.NegInfinity => True
  end.


(** ** Callers that chain the methods *)

(** A caller that writes a sequence of fields one after the other, and one
    that reads a sequence of fields one after the other. *)
Fixpoint writeAll (fields : list (format * Z)) : M StreamOut.t unit :=
  match fields with
  | [] => ret tt
  | (f, v) :: rest => _ <- writeX f (Js.int v) ;; writeAll rest
  end.

Fixpoint readAll (formats : list format) : M StreamIn.t (list Z) :=
  match formats with
  | [] => ret []
  | f :: rest => v <- readX f ;; vs <- readAll rest ;; ret (v :: vs)
  end.

(** The bytes a sequence of fields occupies. *)
Definition layouts (fields : list (format * Z)) : Buffer.t :=
  flat_map (fun fv => layout (fst fv) (snd fv)) fields.

Definition in_range (fv : format * Z) : Prop :=
  lowest (fst fv) <= snd fv <= highest (fst fv).

(** * Proofs *)

(** The documented examples of the two classes. *)
Example StreamOut_basic_usage :
  (_ <- StreamOut.writeUint8 (Js.int 0x14) ;;
   _ <- StreamOut.writeUint16LE (Js.int 0x0fa0) ;;
   StreamOut.bytes) StreamOut.new
  = (Normal [x14; xa0; x0f],
     {| StreamOut.buffer := [x14; xa0; x0f]; StreamOut.pos := 3 |}).
Proof. vm_compute. reflexivity. Qed.

Example StreamIn_basic_usage :
  (a <- StreamIn.readUint8 ;;
   b <- StreamIn.readUint16LE ;;
   c <- StreamIn.hasData ;;
   ret (a, b, c)) (StreamIn.new [x14; xa0; x0f])
  = (Normal (20, 4000, false),
     {| StreamIn.buffer := [x14; xa0; x0f]; StreamIn.pos := 3 |}).
Proof. vm_compute. reflexivity. Qed.

(** ** Arithmetic of the conversions *)

Section Conversions.

Lemma trunc_int (z : Z) : Js.trunc (inject_Z z) = z.
Proof. unfold Js.trunc; simpl. apply Z.quot_1_r. Qed.

Lemma gt_int (z bound : Z) : Js.gt (Js.int z) bound = (bound <? z).
Proof.
  unfold Js.gt, Js.int, Qle_bool; simpl.
  rewrite !Z.mul_1_r. apply eq_sym, Z.ltb_antisym.
Qed.

Lemma lt_int (z bound : Z) : Js.lt (Js.int z) bound = (z <? bound).
Proof.
  unfold Js.lt, Js.int, Qle_bool; simpl.
  rewrite !Z.mul_1_r. apply eq_sym, Z.ltb_antisym.
Qed.

Lemma checkInt_int (z min max : Z) :
  Buffer.checkInt (Js.int z) min max = ((max <? z) || (z <? min)).
Proof. unfold Buffer.checkInt. now rewrite gt_int, lt_int. Qed.

Lemma checkInt_in_range (z min max : Z) :
  min <= z <= max -> Buffer.checkInt (Js.int z) min max = false.
Proof.
  intros H. rewrite checkInt_int.
  destruct (Z.ltb_spec max z), (Z.ltb_spec z min); simpl; auto; lia.
Qed.

Lemma checkInt_out_of_range (z min max : Z) :
  z < min \/ max < z -> Buffer.checkInt (Js.int z) min max = true.
Proof.
  intros H. rewrite checkInt_int.
  destruct (Z.ltb_spec max z), (Z.ltb_spec z min); simpl; auto; lia.
Qed.

Lemma ToUint8_int (z : Z) : Js.ToUint8 (Js.int z) = z mod 2 ^ 8.
Proof. unfold Js.ToUint8, Js.int. now rewrite trunc_int. Qed.

Lemma ToUint32_int (z : Z) : Js.ToUint32 (Js.int z) = z mod 2 ^ 32.
Proof. unfold Js.ToUint32, Js.int. now rewrite trunc_int. Qed.

Lemma ushr_int (z : Z) : Js.ushr (Js.int z) 8 = Js.int ((z mod 2 ^ 32) / 2 ^ 8).
Proof.
  unfold Js.ushr. rewrite ToUint32_int.
  now rewrite Z.shiftr_div_pow2 by lia.
Qed.

Lemma Z_of_byte_range (b : byte) : 0 <= Buffer.Z_of_byte b < 2 ^ 8.
Proof.
  unfold Buffer.Z_of_byte.
  pose proof (Byte.to_N_bounded b) as H.
  change (2 ^ 8) with 256. lia.
Qed.

Lemma Z_of_byte_of_Z (z : Z) :
  0 <= z < 2 ^ 8 -> Buffer.Z_of_byte (Buffer.byte_of_Z z) = z.
Proof.
  intros H. unfold Buffer.Z_of_byte, Buffer.byte_of_Z.
  destruct (Byte.of_N (Z.to_N z)) as [b|] eqn:E.
  - apply Byte.to_of_N in E. rewrite E. lia.
  - apply Byte.of_N_None_iff in E. change (2 ^ 8) with 256 in H. lia.
Qed.

Lemma byte_of_Z_of_byte (b : byte) :
  Buffer.byte_of_Z (Buffer.Z_of_byte b) = b.
Proof.
  unfold Buffer.Z_of_byte, Buffer.byte_of_Z.
  now rewrite N2Z.id, Byte.of_to_N.
Qed.

Lemma store_int (z : Z) :
  Buffer.Z_of_byte (Buffer.store (Js.int z)) = z mod 2 ^ 8.
Proof.
  unfold Buffer.store. rewrite ToUint8_int.
  apply Z_of_byte_of_Z. apply Z.mod_pos_bound. lia.
Qed.

Lemma shl_24 (b : Z) :
  0 <= b < 2 ^ 8 ->
  Js.shl b 24 = if 2 ^ 7 <=? b then b * 2 ^ 24 - 2 ^ 32 else b * 2 ^ 24.
Proof.
  intros H. unfold Js.shl, Js.wrap_int32.
  change (2 ^ 8) with 256 in H.
  rewrite (Z.mod_small b) by lia.
  replace (if 2 ^ 31 <=? b then b - 2 ^ 32 else b) with b
    by (destruct (Z.leb_spec (2 ^ 31) b); lia).
  rewrite Z.shiftl_mul_pow2 by lia.
  rewrite (Z.mod_small (b * 2 ^ 24)) by lia.
  destruct (Z.leb_spec (2 ^ 31) (b * 2 ^ 24)), (Z.leb_spec (2 ^ 7) b); lia.
Qed.

End Conversions.

(** ** The codec on layouts *)

Section Codec.

Ltac arith := Z.div_mod_to_equations; lia.

Lemma store_octet0 (v : Z) : Buffer.store (Js.int v) = octet v 0.
Proof.
  unfold Buffer.store, octet. rewrite ToUint8_int.
  f_equal. change (2 ^ (8 * 0)) with 1. now rewrite Z.div_1_r.
Qed.

Lemma store_octet1 (v : Z) :
  Buffer.store (Js.ushr (Js.int v) 8) = octet v 1.
Proof.
  rewrite ushr_int, store_octet0. unfold octet. f_equal.
  change (2 ^ (8 * 0)) with 1. change (2 ^ (8 * 1)) with 256.
  change (2 ^ 32) with 4294967296. change (2 ^ 8) with 256. arith.
Qed.

Lemma store_octet2 (v : Z) :
  Buffer.store (Js.ushr (Js.ushr (Js.int v) 8) 8) = octet v 2.
Proof.
  rewrite !ushr_int, store_octet0. unfold octet. f_equal.
  change (2 ^ (8 * 0)) with 1. change (2 ^ (8 * 2)) with 65536.
  change (2 ^ 32) with 4294967296. change (2 ^ 8) with 256. arith.
Qed.

Lemma store_octet3 (v : Z) :
  Buffer.store (Js.ushr (Js.ushr (Js.ushr (Js.int v) 8) 8) 8) = octet v 3.
Proof.
  rewrite !ushr_int, store_octet0. unfold octet. f_equal.
  change (2 ^ (8 * 0)) with 1. change (2 ^ (8 * 3)) with 16777216.
  change (2 ^ 32) with 4294967296. change (2 ^ 8) with 256. arith.
Qed.

Lemma Z_of_octet (v i : Z) :
  Buffer.Z_of_byte (octet v i) = (v / 2 ^ (8 * i)) mod 2 ^ 8.
Proof. apply Z_of_byte_of_Z. apply Z.mod_pos_bound. lia. Qed.

Lemma in_range_checkInt (f : format) (v : Z) :
  lowest f <= v <= highest f ->
  Buffer.checkInt (Js.int v) (lowest f) (highest f) = false.
Proof. apply checkInt_in_range. Qed.

(** Encoding an in-range integer into a fresh zero-filled buffer of the
    format's width gives the layout. *)
Lemma Buffer_write_layout (f : format) (v : Z) :
  lowest f <= v <= highest f ->
  Buffer_write f (repeat x00 (Z.to_nat (width f))) (Js.int v)
  = Normal (layout f v).
Proof.
  intros H. apply in_range_checkInt in H.
  destruct f; cbn [Buffer_write width lowest highest layout] in *;
    unfold Buffer.writeUint8, Buffer.writeUint16LE, Buffer.writeUint32LE,
      Buffer.writeInt32LE, Buffer.writeUint16BE, Buffer.writeUint32BE,
      Buffer.writeU_Int8, Buffer.writeU_Int16LE, Buffer.writeU_Int32LE,
      Buffer.writeU_Int16BE, Buffer.writeU_Int32BE;
    (match goal with
     | |- (if ?c then _ else _) = _ =>
         replace c with false by (symmetry; exact H)
     end);
    cbn [Z.to_nat Pos.to_nat Pos.iter_op Nat.add repeat];
    now rewrite ?store_octet0, ?store_octet1, ?store_octet2, ?store_octet3.
Qed.

(** Decoding the layout of an in-range integer gives the integer back. *)
Lemma Buffer_read_layout (f : format) (v : Z) :
  lowest f <= v <= highest f ->
  Buffer_read f (layout f v) = Normal v.
Proof.
  intros H.
  destruct f; cbn [Buffer_read lowest highest layout] in *;
    unfold Buffer.readUint8, Buffer.readUint16LE, Buffer.readUint32LE,
      Buffer.readInt32LE, Buffer.readUint16BE, Buffer.readUint32BE;
    f_equal;
    try (rewrite shl_24 by apply Z_of_byte_range);
    rewrite !Z_of_octet;
    change (2 ^ (8 * 0)) with 1 in *; change (2 ^ (8 * 1)) with 256 in *;
    change (2 ^ (8 * 2)) with 65536 in *;
    change (2 ^ (8 * 3)) with 16777216 in *;
    change (2 ^ 8) with 256 in *; change (2 ^ 16) with 65536 in *;
    change (2 ^ 24) with 16777216 in *; change (2 ^ 32) with 4294967296 in *;
    change (2 ^ 31) with 2147483648 in *; change (2 ^ 7) with 128 in *;
    try (destruct (Z.leb_spec 128 ((v / 16777216) mod 256)));
    arith.
Qed.

Lemma layout_length (f : format) (v : Z) :
  Buffer.length (layout f v) = width f.
Proof. now destruct f. Qed.

End Codec.

(** ** Slices *)

Section Slices.

Lemma length_nonneg (b : Buffer.t) : 0 <= Buffer.length b.
Proof. unfold Buffer.length. lia. Qed.

Lemma adjustOffset_range (offset len : Z) :
  0 <= len -> 0 <= Buffer.adjustOffset offset len <= len.
Proof.
  intros H. unfold Buffer.adjustOffset.
  destruct (Z.eqb_spec offset 0), (Z.ltb_spec offset 0),
    (Z.ltb_spec 0 (offset + len)), (Z.ltb_spec offset len); lia.
Qed.

Lemma adjustOffset_inside (offset len : Z) :
  0 <= offset <= len -> Buffer.adjustOffset offset len = offset.
Proof.
  intros H. unfold Buffer.adjustOffset.
  destruct (Z.eqb_spec offset 0), (Z.ltb_spec offset 0),
    (Z.ltb_spec 0 (offset + len)), (Z.ltb_spec offset len); lia.
Qed.

Lemma adjustOffset_beyond (offset len : Z) :
  0 <= len <= offset -> Buffer.adjustOffset offset len = len.
Proof.
  intros H. unfold Buffer.adjustOffset.
  destruct (Z.eqb_spec offset 0), (Z.ltb_spec offset 0),
    (Z.ltb_spec 0 (offset + len)), (Z.ltb_spec offset len); lia.
Qed.

Lemma cut_le (b : Buffer.t) (pos : Z) : (cut b pos <= List.length b)%nat.
Proof.
  unfold cut.
  pose proof (adjustOffset_range pos _ (length_nonneg b)) as H.
  unfold Buffer.length in *. lia.
Qed.

Lemma cut_inside (b : Buffer.t) (pos : Z) :
  0 <= pos <= Buffer.length b -> cut b pos = Z.to_nat pos.
Proof. intros H. unfold cut. now rewrite adjustOffset_inside. Qed.

Lemma cut_beyond (b : Buffer.t) (pos : Z) :
  Buffer.length b <= pos -> cut b pos = List.length b.
Proof.
  intros H. unfold cut.
  rewrite adjustOffset_beyond by (pose proof (length_nonneg b); lia).
  unfold Buffer.length. lia.
Qed.

(** [buffer.subarray(0, pos)] and [buffer.subarray(pos)] are the two sides
    of the buffer at the cut, whatever the cursor. *)
Lemma subarray_before (b : Buffer.t) (pos : Z) :
  Buffer.subarray b 0 (Some pos) = firstn (cut b pos) b.
Proof.
  unfold Buffer.subarray, cut.
  pose proof (adjustOffset_range pos _ (length_nonneg b)) as H.
  set (a := Buffer.adjustOffset pos (Buffer.length b)) in *.
  change (Buffer.adjustOffset 0 (Buffer.length b)) with 0.
  cbn [Z.to_nat skipn].
  destruct (Z.ltb_spec 0 a).
  - now rewrite Z.sub_0_r.
  - now replace a with 0 by lia.
Qed.

Lemma subarray_after (b : Buffer.t) (pos : Z) :
  Buffer.subarray b pos None = skipn (cut b pos) b.
Proof.
  unfold Buffer.subarray, cut.
  pose proof (adjustOffset_range pos _ (length_nonneg b)) as H.
  set (a := Buffer.adjustOffset pos (Buffer.length b)) in *.
  assert (Hl : List.length (skipn (Z.to_nat a) b)
               = Z.to_nat (Buffer.length b - a)).
  { rewrite length_skipn. unfold Buffer.length in *. lia. }
  destruct (Z.ltb_spec a (Buffer.length b)).
  - apply firstn_all2. lia.
  - apply firstn_all2. lia.
Qed.

(** A read of [n] bytes at a cursor inside the buffer. *)
Lemma subarray_window (b : Buffer.t) (pos n : Z) :
  0 <= pos -> 0 <= n ->
  Buffer.subarray b pos (Some (pos + n))
  = firstn (Z.to_nat n) (skipn (Z.to_nat pos) b).
Proof.
  intros Hp Hn. unfold Buffer.subarray.
  pose proof (length_nonneg b) as Hb.
  assert (Hl : forall k, List.length (skipn k b)
                         = (List.length b - k)%nat)
    by (intros; apply length_skipn).
  destruct (Z.le_gt_cases (Buffer.length b) pos) as [Hge|Hlt].
  - rewrite (adjustOffset_beyond pos) by lia.
    rewrite (adjustOffset_beyond (pos + n)) by lia.
    rewrite Z.ltb_irrefl. cbn [Z.to_nat firstn].
    rewrite (skipn_all2 b (n := Z.to_nat pos))
      by (unfold Buffer.length in *; lia).
    now rewrite firstn_nil.
  - rewrite (adjustOffset_inside pos) by lia.
    destruct (Z.le_gt_cases (pos + n) (Buffer.length b)) as [Hin|Hout].
    + rewrite (adjustOffset_inside (pos + n)) by lia.
      destruct (Z.ltb_spec pos (pos + n)).
      * f_equal. lia.
      * now replace n with 0 by lia.
    + rewrite (adjustOffset_beyond (pos + n)) by lia.
      destruct (Z.ltb_spec pos (Buffer.length b)); [|lia].
      rewrite !firstn_all2; auto;
        rewrite Hl; unfold Buffer.length in *; lia.
Qed.

(** A read that runs past the end returns what [subarray(pos)] returns. *)
Lemma subarray_short (b : Buffer.t) (pos n : Z) :
  Buffer.length b < pos + n ->
  Buffer.subarray b pos (Some (pos + n)) = Buffer.subarray b pos None.
Proof.
  intros H. unfold Buffer.subarray.
  now rewrite (adjustOffset_beyond (pos + n))
    by (pose proof (length_nonneg b); lia).
Qed.

Lemma subarray_after_length (b : Buffer.t) (pos : Z) :
  Buffer.length (Buffer.subarray b pos None)
  = Buffer.length b - Buffer.adjustOffset pos (Buffer.length b).
Proof.
  rewrite subarray_after. unfold Buffer.length at 1.
  rewrite length_skipn. pose proof (cut_le b pos) as H.
  pose proof (adjustOffset_range pos _ (length_nonneg b)) as Hr.
  unfold cut, Buffer.length in *. lia.
Qed.

Lemma subarray_short_length (b : Buffer.t) (pos n : Z) :
  0 < n -> Buffer.length b < pos + n ->
  Buffer.length (Buffer.subarray b pos None) < n.
Proof.
  intros Hn H. rewrite subarray_after_length.
  pose proof (length_nonneg b) as Hb.
  unfold Buffer.adjustOffset.
  destruct (Z.eqb_spec pos 0), (Z.ltb_spec pos 0),
    (Z.ltb_spec 0 (pos + Buffer.length b)),
    (Z.ltb_spec pos (Buffer.length b)); lia.
Qed.

Lemma length_app (a b : Buffer.t) :
  Buffer.length (a ++ b) = Buffer.length a + Buffer.length b.
Proof. unfold Buffer.length. rewrite List.length_app. lia. Qed.

Lemma concat3 (a b c : Buffer.t) : Buffer.concat [a; b; c] = a ++ b ++ c.
Proof. unfold Buffer.concat. simpl. now rewrite app_nil_r. Qed.

End Slices.

(** ** How the stream methods run *)

Section Streams.

Lemma readBytes_run (length : Z) (r : StreamIn.t) :
  StreamIn.readBytes length r
  = (Normal (Buffer.subarray (StreamIn.buffer r) (StreamIn.pos r)
               (Some (StreamIn.pos r + length))),
     {| StreamIn.buffer := StreamIn.buffer r;
        StreamIn.pos := StreamIn.pos r + length |}).
Proof. reflexivity. Qed.

Lemma readX_run (f : format) (r : StreamIn.t) :
  readX f r
  = (Buffer_read f (Buffer.subarray (StreamIn.buffer r) (StreamIn.pos r)
                      (Some (StreamIn.pos r + width f))),
     {| StreamIn.buffer := StreamIn.buffer r;
        StreamIn.pos := StreamIn.pos r + width f |}).
Proof. destruct f; reflexivity. Qed.

Lemma writeBytes_run (data : Buffer.t) (w : StreamOut.t) :
  StreamOut.writeBytes data w
  = (Normal tt,
     {| StreamOut.buffer :=
          firstn (cut (StreamOut.buffer w) (StreamOut.pos w))
            (StreamOut.buffer w)
          ++ data
          ++ skipn (cut (StreamOut.buffer w) (StreamOut.pos w))
               (StreamOut.buffer w);
        StreamOut.pos := StreamOut.pos w + Buffer.length data |}).
Proof.
  unfold StreamOut.writeBytes.
  now rewrite concat3, subarray_before, subarray_after.
Qed.

Lemma writeX_run (f : format) (v : Js.number) (w : StreamOut.t) :
  writeX f v w
  = match Buffer_write f (repeat x00 (Z.to_nat (width f))) v with
    | Normal bytes => StreamOut.writeBytes bytes w
    | Throw e => (Throw e, w)
    end.
Proof. destruct f; reflexivity. Qed.

(** A buffer shorter than the field makes the reader of the field throw. *)
Lemma Buffer_read_short (f : format) (b : Buffer.t) :
  Buffer.length b < width f -> Buffer_read f b = Throw RangeError.
Proof.
  unfold Buffer.length.
  destruct f; cbn [width Buffer_read];
    destruct b as [|b0 [|b1 [|b2 [|b3 b]]]]; cbn [List.length];
    intros H; try reflexivity; lia.
Qed.

(** The writers of the buffer library keep the length of the buffer. *)
Lemma Buffer_write_length (f : format) (b b' : Buffer.t) (v : Js.number) :
  Buffer_write f b v = Normal b' -> Buffer.length b' = Buffer.length b.
Proof.
  destruct f; cbn [Buffer_write];
    unfold Buffer.writeUint8, Buffer.writeUint16LE, Buffer.writeUint32LE,
      Buffer.writeInt32LE, Buffer.writeUint16BE, Buffer.writeUint32BE,
      Buffer.writeU_Int8, Buffer.writeU_Int16LE, Buffer.writeU_Int32LE,
      Buffer.writeU_Int16BE, Buffer.writeU_Int32BE;
    (match goal with
     | |- (if ?c then _ else _) = _ -> _ => destruct c
     end);
    destruct b as [|b0 [|b1 [|b2 [|b3 b]]]]; intros H;
    try discriminate H; injection H as <-; reflexivity.
Qed.

Lemma zeros_length (n : Z) :
  0 <= n -> Buffer.length (repeat x00 (Z.to_nat n)) = n.
Proof. intros H. unfold Buffer.length. rewrite repeat_length. lia. Qed.

(** The bytes spliced in at a cut are the ones a window at that cut sees. *)
Lemma window_of_insert (b data : Buffer.t) (p : nat) :
  (p <= List.length b)%nat ->
  firstn (List.length data) (skipn p (firstn p b ++ data ++ skipn p b))
  = data.
Proof.
  intros H.
  assert (Hp : List.length (firstn p b) = p) by (apply firstn_length_le, H).
  rewrite skipn_app, Hp, Nat.sub_diag. cbn [skipn].
  rewrite skipn_all2 by lia. cbn [app].
  rewrite firstn_app, Nat.sub_diag, firstn_all. cbn [firstn].
  apply app_nil_r.
Qed.

End Streams.

(** ** The properties of the specification *)

(** C1 (round trip).  In a writer whose cursor lies within its buffer, for
    each of the six formats and every integer of the format's range: write
    the value, hand [bytes()] to a reader, seek the reader to where the
    writer's cursor was before the write, and the matching read returns
    the value. *)
Theorem write_then_read_roundtrip (f : format) (v : Z) (w : StreamOut.t) :
  0 <= StreamOut.pos w <= Buffer.length (StreamOut.buffer w) ->
  lowest f <= v <= highest f ->
  exists (out : Buffer.t) (w' : StreamOut.t),
    (_ <- writeX f (Js.int v) ;; StreamOut.bytes) w = (Normal out, w')
    /\ fst ((_ <- StreamIn.seek (StreamOut.pos w) ;; readX f)
              (StreamIn.new out)) = Normal v.
Proof.
  intros Hpos Hv.
  unfold bind at 1. rewrite writeX_run, Buffer_write_layout by exact Hv.
  rewrite writeBytes_run. cbn [StreamOut.bytes StreamOut.buffer].
  eexists; eexists; split; [reflexivity|].
  unfold bind. cbn [StreamIn.seek StreamIn.new StreamIn.buffer].
  rewrite readX_run. cbn [fst StreamIn.buffer StreamIn.pos].
  rewrite subarray_window by (destruct f; cbn; lia).
  rewrite cut_inside by exact Hpos.
  replace (Z.to_nat (width f)) with (List.length (layout f v))
    by (now destruct f).
  cbn [StreamOut.buffer].
  rewrite window_of_insert by (unfold Buffer.length in Hpos; lia).
  now apply Buffer_read_layout.
Qed.

Lemma write_then_read_roundtrip_witness :
  0 <= 1 <= Buffer.length [x01; x02]
  /\ lowest Int32LE <= -2 <= highest Int32LE
  /\ exists (out : Buffer.t) (w' : StreamOut.t),
       (_ <- writeX Int32LE (Js.int (-2)) ;; StreamOut.bytes)
         {| StreamOut.buffer := [x01; x02]; StreamOut.pos := 1 |}
       = (Normal out, w')
       /\ fst ((_ <- StreamIn.seek 1 ;; readX Int32LE) (StreamIn.new out))
          = Normal (-2).
Proof.
  assert (H1 : 0 <= 1 <= Buffer.length [x01; x02])
    by (unfold Buffer.length; simpl; lia).
  assert (H2 : lowest Int32LE <= -2 <= highest Int32LE) by (simpl; lia).
  split; [exact H1|]. split; [exact H2|].
  exact (write_then_read_roundtrip Int32LE (-2)
           {| StreamOut.buffer := [x01; x02]; StreamOut.pos := 1 |} H1 H2).
Defined.

(** C2 (insertion).  With the cursor within the buffer, [writeBytes(data)]
    makes the buffer [buffer[0:pos] ++ data ++ buffer[pos:]] and advances
    the cursor by the length of [data]; every byte that was at an index
    [i >= pos] is afterwards at index [i + data.length]. *)
Theorem writeBytes_inserts_at_cursor (w : StreamOut.t) (data : Buffer.t) :
  0 <= StreamOut.pos w <= Buffer.length (StreamOut.buffer w) ->
  exists w' : StreamOut.t,
    StreamOut.writeBytes data w = (Normal tt, w')
    /\ StreamOut.buffer w'
       = firstn (Z.to_nat (StreamOut.pos w)) (StreamOut.buffer w)
         ++ data
         ++ skipn (Z.to_nat (StreamOut.pos w)) (StreamOut.buffer w)
    /\ StreamOut.pos w' = StreamOut.pos w + Buffer.length data
    /\ forall i : nat,
         (Z.to_nat (StreamOut.pos w) <= i)%nat ->
         nth_error (StreamOut.buffer w') (i + List.length data)
         = nth_error (StreamOut.buffer w) i.
Proof.
  intros Hpos. rewrite writeBytes_run, cut_inside by exact Hpos.
  eexists; split; [reflexivity|]. cbn [StreamOut.buffer StreamOut.pos].
  repeat split.
  intros i Hi.
  set (p := Z.to_nat (StreamOut.pos w)) in *.
  assert (Hp : List.length (firstn p (StreamOut.buffer w)) = p).
  { apply firstn_length_le. unfold Buffer.length in Hpos. lia. }
  rewrite nth_error_app2 by lia. rewrite Hp.
  rewrite nth_error_app2 by lia.
  rewrite nth_error_skipn. f_equal. lia.
Qed.

Lemma writeBytes_inserts_at_cursor_witness :
  0 <= 1 <= Buffer.length [x0a; x0b; x0c]
  /\ exists w' : StreamOut.t,
       StreamOut.writeBytes [xff; xfe]
         {| StreamOut.buffer := [x0a; x0b; x0c]; StreamOut.pos := 1 |}
       = (Normal tt, w')
       /\ StreamOut.buffer w' = [x0a] ++ [xff; xfe] ++ [x0b; x0c]
       /\ StreamOut.pos w' = 1 + Buffer.length [xff; xfe]
       /\ forall i : nat,
            (Z.to_nat 1 <= i)%nat ->
            nth_error (StreamOut.buffer w') (i + 2)
            = nth_error [x0a; x0b; x0c] i.
Proof.
  assert (H : 0 <= 1 <= Buffer.length [x0a; x0b; x0c])
    by (unfold Buffer.length; simpl; lia).
  split; [exact H|].
  exact (writeBytes_inserts_at_cursor
           {| StreamOut.buffer := [x0a; x0b; x0c]; StreamOut.pos := 1 |}
           [xff; xfe] H).
Defined.



(** C3 (short read), as the code has it.  When [pos + length] exceeds
    [size()], [readBytes(length)] does not fail: it returns
    [buffer.subarray(pos)], which for a cursor that is not negative is the
    bytes remaining from [pos].  A fixed-width read of width [w] with
    [pos + w] beyond [size()] gets fewer than [w] bytes and the decoder
    throws a range error; no number is returned, and the buffer is as it
    was. *)
Theorem short_read_truncates_then_throws (r : StreamIn.t) :
  (forall length : Z,
     StreamIn.pos r + length > Buffer.length (StreamIn.buffer r) ->
     fst (StreamIn.readBytes length r)
     = Normal (Buffer.subarray (StreamIn.buffer r) (StreamIn.pos r) None))
  /\ (0 <= StreamIn.pos r ->
      Buffer.subarray (StreamIn.buffer r) (StreamIn.pos r) None
      = skipn (Z.to_nat (StreamIn.pos r)) (StreamIn.buffer r))
  /\ (forall f : format,
        StreamIn.pos r + width f > Buffer.length (StreamIn.buffer r) ->
        Buffer.length
          (Buffer.subarray (StreamIn.buffer r) (StreamIn.pos r) None)
        < width f
        /\ fst (readX f r) = Throw RangeError
        /\ StreamIn.buffer (snd (readX f r)) = StreamIn.buffer r).
Proof.
  split; [|split].
  - intros length H. rewrite readBytes_run. cbn [fst].
    now rewrite subarray_short by lia.
  - intros H. rewrite subarray_after.
    destruct (Z.le_gt_cases (StreamIn.pos r)
                (Buffer.length (StreamIn.buffer r))) as [Hin|Hout].
    + now rewrite cut_inside by lia.
    + rewrite cut_beyond by lia.
      rewrite !skipn_all2; auto; unfold Buffer.length in *; lia.
  - intros f H.
    assert (Hw : 0 < width f) by (destruct f; cbn; lia).
    assert (Hl : Buffer.length
                   (Buffer.subarray (StreamIn.buffer r) (StreamIn.pos r) None)
                 < width f)
      by (apply subarray_short_length; lia).
    split; [exact Hl|].
    rewrite readX_run, subarray_short by lia.
    cbn [fst snd StreamIn.buffer]. split; [|reflexivity].
    now rewrite Buffer_read_short.
Qed.

Lemma short_read_truncates_then_throws_witness :
  StreamIn.pos (StreamIn.new [x14]) + width Uint16LE
  > Buffer.length (StreamIn.buffer (StreamIn.new [x14]))
  /\ Buffer.length (Buffer.subarray [x14] 0 None) < width Uint16LE
  /\ fst (readX Uint16LE (StreamIn.new [x14])) = Throw RangeError
  /\ StreamIn.buffer (snd (readX Uint16LE (StreamIn.new [x14]))) = [x14].
Proof.
  assert (H : StreamIn.pos (StreamIn.new [x14]) + width Uint16LE
              > Buffer.length (StreamIn.buffer (StreamIn.new [x14])))
    by (unfold Buffer.length; simpl; lia).
  split; [exact H|].
  exact (proj2 (proj2 (short_read_truncates_then_throws
                         (StreamIn.new [x14]))) Uint16LE H).
Defined.

(** C3, as the specification states it, fails: over the one-byte buffer
    [14], [readBytes(2)] returns the one byte that is left, and
    [readUint16LE()] throws instead of returning a number. *)
Lemma short_read_returns_no_number :
  StreamIn.pos (StreamIn.new [x14]) + 2
  > Buffer.length (StreamIn.buffer (StreamIn.new [x14]))
  /\ StreamIn.readBytes 2 (StreamIn.new [x14])
     = (Normal [x14], {| StreamIn.buffer := [x14]; StreamIn.pos := 2 |})
  /\ StreamIn.readUint16LE (StreamIn.new [x14])
     = (Throw RangeError, {| StreamIn.buffer := [x14]; StreamIn.pos := 2 |})
  /\ (forall v : Z,
        fst (StreamIn.readUint16LE (StreamIn.new [x14])) <> Normal v).
Proof.
  repeat split.
  intros v H. vm_compute in H. discriminate H.
Qed.



(** C5 ([hasData]).  In every reader state [hasData()] returns [true]
    exactly when [pos < size()] and leaves the reader as it was; it returns
    [false] exactly when the cursor is at or beyond the end, which for a
    cursor that has not passed the end means [pos = size()]. *)
Theorem hasData_iff_before_end (r : StreamIn.t) :
  exists (b : bool) (n : Z),
    StreamIn.hasData r = (Normal b, r)
    /\ StreamIn.size r = (Normal n, r)
    /\ (b = true <-> StreamIn.pos r < n)
    /\ (b = false <-> n <= StreamIn.pos r)
    /\ (StreamIn.pos r <= n -> (b = false <-> StreamIn.pos r = n)).
Proof.
  exists (StreamIn.pos r <? Buffer.length (StreamIn.buffer r)),
    (Buffer.length (StreamIn.buffer r)).
  split; [reflexivity|]. split; [reflexivity|].
  destruct (Z.ltb_spec (StreamIn.pos r) (Buffer.length (StreamIn.buffer r)));
    repeat split; intros; try discriminate; try lia.
Qed.



Lemma hasData_iff_before_end_witness :
  StreamIn.pos {| StreamIn.buffer := [x14]; StreamIn.pos := 1 |}
  <= Buffer.length [x14]
  /\ fst (StreamIn.hasData {| StreamIn.buffer := [x14]; StreamIn.pos := 1 |})
     = Normal false.
Proof.
  assert (H : StreamIn.pos {| StreamIn.buffer := [x14]; StreamIn.pos := 1 |}
              <= Buffer.length [x14])
    by (unfold Buffer.length; simpl; lia).
  split; [exact H|].
  destruct (hasData_iff_before_end
              {| StreamIn.buffer := [x14]; StreamIn.pos := 1 |})
    as (b & n & Hh & Hs & _ & _ & Hend).
  injection Hs as Hn. rewrite Hh. cbn [fst]. f_equal.
  apply Hend; rewrite <- Hn; [exact H | reflexivity].
Defined.

(** C6 (byte order).  On a fresh writer [writeUint16LE(0x0fa0)] makes
    [bytes()] the two bytes [a0 0f] and [writeUint16BE(0x0fa0)] makes it
    [0f a0]; in general a fresh writer that writes an integer of the
    format's range holds exactly the layout of the value: least significant
    byte first for the LE formats, most significant byte first for the BE
    ones. *)
Theorem endianness_layout :
  (_ <- StreamOut.writeUint16LE (Js.int 0x0fa0) ;; StreamOut.bytes)
    StreamOut.new
  = (Normal [xa0; x0f],
     {| StreamOut.buffer := [xa0; x0f]; StreamOut.pos := 2 |})
  /\ (_ <- StreamOut.writeUint16BE (Js.int 0x0fa0) ;; StreamOut.bytes)
       StreamOut.new
     = (Normal [x0f; xa0],
        {| StreamOut.buffer := [x0f; xa0]; StreamOut.pos := 2 |})
  /\ (forall (f : format) (v : Z),
        lowest f <= v <= highest f ->
        (_ <- writeX f (Js.int v) ;; StreamOut.bytes) StreamOut.new
        = (Normal (layout f v),
           {| StreamOut.buffer := layout f v; StreamOut.pos := width f |})).
Proof.
  split; [vm_compute; reflexivity|]. split; [vm_compute; reflexivity|].
  intros f v H. unfold bind.
  rewrite writeX_run, Buffer_write_layout by exact H.
  rewrite writeBytes_run.
  cbn [StreamOut.new StreamOut.buffer StreamOut.pos StreamOut.bytes
       firstn skipn app].
  rewrite layout_length, firstn_nil, skipn_nil, app_nil_r.
  reflexivity.
Qed.

Lemma endianness_layout_witness :
  lowest Uint32BE <= 0x01020304 <= highest Uint32BE
  /\ (_ <- writeX Uint32BE (Js.int 0x01020304) ;; StreamOut.bytes)
       StreamOut.new
     = (Normal (layout Uint32BE 0x01020304),
        {| StreamOut.buffer := layout Uint32BE 0x01020304;
           StreamOut.pos := width Uint32BE |}).
Proof.
  assert (H : lowest Uint32BE <= 0x01020304 <= highest Uint32BE)
    by (simpl; lia).
  split; [exact H|].
  exact (proj2 (proj2 endianness_layout) Uint32BE 0x01020304 H).
Defined.




(** ** The bounds check *)

Section Refusal.

Lemma checkInt_exceeds (value : Js.number) (min max : Z) :
  Buffer.checkInt value min max = true <-> exceeds value min max.
Proof.
  unfold Buffer.checkInt, exceeds, Js.gt, Js.lt.
  destruct value as [q| | |]; cbn [orb negb].
  - rewrite orb_true_iff, !negb_true_iff.
    rewrite <- !not_true_iff_false, !Qle_bool_iff.
    split.
    + intros [H|H]; [right|left]; now apply Qnot_le_lt.
    + intros [H|H]; [right|left]; now apply Qlt_not_le.
  - split; [discriminate|contradiction].
  - split; auto.
  - split; auto.
Qed.




End Refusal.




(** * Further properties of the code *)

(** ** Helpers *)

Section MoreSlices.

Lemma subarray_length (b : Buffer.t) (s e : Z) :
  Buffer.length (Buffer.subarray b s (Some e))
  = Z.max 0 (Buffer.adjustOffset e (Buffer.length b)
             - Buffer.adjustOffset s (Buffer.length b)).
Proof.
  unfold Buffer.subarray.
  pose proof (adjustOffset_range s _ (length_nonneg b)) as Hs.
  pose proof (adjustOffset_range e _ (length_nonneg b)) as He.
  set (x := Buffer.adjustOffset s (Buffer.length b)) in *.
  set (y := Buffer.adjustOffset e (Buffer.length b)) in *.
  unfold Buffer.length at 1. rewrite length_firstn, length_skipn.
  unfold Buffer.length in *.
  destruct (Z.ltb_spec x y); lia.
Qed.

Lemma adjustOffset_from_end (offset len : Z) :
  - len <= offset < 0 ->
  Buffer.adjustOffset offset len = len + offset.
Proof.
  intros H. unfold Buffer.adjustOffset.
  destruct (Z.eqb_spec offset 0), (Z.ltb_spec offset 0),
    (Z.ltb_spec 0 (offset + len)); lia.
Qed.

Lemma adjustOffset_before_start (offset len : Z) :
  0 <= len -> offset <= - len -> Buffer.adjustOffset offset len = 0.
Proof.
  intros Hl H. unfold Buffer.adjustOffset.
  destruct (Z.eqb_spec offset 0), (Z.ltb_spec offset 0),
    (Z.ltb_spec 0 (offset + len)), (Z.ltb_spec offset len); lia.
Qed.

Lemma window_length (b : Buffer.t) (p n : Z) :
  0 <= p -> 0 <= n -> p + n <= Buffer.length b ->
  List.length (firstn (Z.to_nat n) (skipn (Z.to_nat p) b)) = Z.to_nat n.
Proof.
  intros Hp Hn H. rewrite length_firstn, length_skipn.
  unfold Buffer.length in H. lia.
Qed.

(** A window over a buffer split around it. *)
Lemma window_of_app (pre data post : Buffer.t) :
  firstn (List.length data)
    (skipn (List.length pre) (pre ++ data ++ post)) = data.
Proof.
  rewrite skipn_app, Nat.sub_diag, skipn_all. cbn [skipn app].
  rewrite firstn_app, Nat.sub_diag, firstn_all. cbn [firstn].
  apply app_nil_r.
Qed.

End MoreSlices.

Section WriterSteps.

(** Every mutating method of the writer either throws before it touches
    the writer, or is one call of [writeBytes]. *)
Lemma writeX_cases (f : format) (v : Js.number) (w : StreamOut.t) :
  writeX f v w = (Throw RangeError, w)
  \/ exists data : Buffer.t,
       Buffer.length data = width f
       /\ writeX f v w = StreamOut.writeBytes data w.
Proof.
  rewrite writeX_run.
  destruct (Buffer_write f _ v) as [data|[]] eqn:E.
  - right. exists data. split; [|reflexivity].
    apply Buffer_write_length in E.
    now rewrite zeros_length in E by (destruct f; cbn; lia).
  - now left.
Qed.

Lemma skip_cases (n : Z) (w : StreamOut.t) :
  ((n < 0 \/ Buffer.kMaxLength < n)
   /\ StreamOut.skip n w = (Throw RangeError, w))
  \/ (0 <= n <= Buffer.kMaxLength
      /\ StreamOut.skip n w
         = StreamOut.writeBytes (repeat x00 (Z.to_nat n)) w).
Proof.
  unfold StreamOut.skip, bind, lift, Buffer.alloc.
  destruct (Z.ltb_spec n 0); [left; split; [lia|reflexivity]|].
  destruct (Z.ltb_spec Buffer.kMaxLength n); [left|right];
    (split; [lia|reflexivity]).
Qed.

Lemma writeBytes_within (data : Buffer.t) (w : StreamOut.t) :
  0 <= StreamOut.pos w <= Buffer.length (StreamOut.buffer w) ->
  0 <= StreamOut.pos (snd (StreamOut.writeBytes data w))
    <= Buffer.length (StreamOut.buffer (snd (StreamOut.writeBytes data w))).
Proof.
  intros H. rewrite writeBytes_run. cbn [snd StreamOut.pos StreamOut.buffer].
  rewrite cut_inside by exact H.
  rewrite !length_app.
  pose proof (length_nonneg data).
  pose proof (length_nonneg
                (skipn (Z.to_nat (StreamOut.pos w)) (StreamOut.buffer w))).
  assert (Buffer.length
            (firstn (Z.to_nat (StreamOut.pos w)) (StreamOut.buffer w))
          = StreamOut.pos w).
  { unfold Buffer.length in *. rewrite length_firstn. lia. }
  lia.
Qed.

Lemma writeBytes_at_end (data : Buffer.t) (w : StreamOut.t) :
  StreamOut.pos w = Buffer.length (StreamOut.buffer w) ->
  StreamOut.writeBytes data w
  = (Normal tt,
     {| StreamOut.buffer := StreamOut.buffer w ++ data;
        StreamOut.pos := Buffer.length (StreamOut.buffer w ++ data) |}).
Proof.
  intros H. rewrite writeBytes_run, cut_beyond by lia.
  rewrite firstn_all, skipn_all, app_nil_r, length_app, H. reflexivity.
Qed.

End WriterSteps.

(** ** The writer at any cursor *)

(** X1.  Whatever the cursor, in range or not, [writeBytes(data)] returns,
    and it cuts the old buffer at one index [n] and puts [data] between the
    two parts: no old byte is lost, duplicated or reordered, and the size
    grows by exactly the length of [data]. *)
Theorem writeBytes_keeps_every_old_byte (w : StreamOut.t) (data : Buffer.t) :
  exists n : nat,
    (n <= List.length (StreamOut.buffer w))%nat
    /\ fst (StreamOut.writeBytes data w) = Normal tt
    /\ StreamOut.buffer (snd (StreamOut.writeBytes data w))
       = firstn n (StreamOut.buffer w) ++ data
         ++ skipn n (StreamOut.buffer w)
    /\ Buffer.length
         (StreamOut.buffer (snd (StreamOut.writeBytes data w)))
       = Buffer.length (StreamOut.buffer w) + Buffer.length data.
Proof.
  exists (cut (StreamOut.buffer w) (StreamOut.pos w)).
  split; [apply cut_le|]. rewrite writeBytes_run.
  cbn [fst snd StreamOut.buffer].
  split; [reflexivity|]. split; [reflexivity|].
  rewrite !length_app.
  pose proof (firstn_skipn (cut (StreamOut.buffer w) (StreamOut.pos w))
                (StreamOut.buffer w)) as E.
  apply (f_equal Buffer.length) in E. rewrite length_app in E. lia.
Qed.

(** X2.  A negative cursor counts from the end of the buffer: with
    [-size() <= pos < 0] the data goes in at index [size() + pos] and the
    cursor moves by the length of the data, and with [pos <= -size()] the
    data goes in front of the whole buffer. *)
Theorem writeBytes_negative_cursor (w : StreamOut.t) (data : Buffer.t) :
  (- Buffer.length (StreamOut.buffer w) <= StreamOut.pos w < 0 ->
   StreamOut.writeBytes data w
   = (Normal tt,
      {| StreamOut.buffer :=
           firstn (Z.to_nat (Buffer.length (StreamOut.buffer w)
                             + StreamOut.pos w)) (StreamOut.buffer w)
           ++ data
           ++ skipn (Z.to_nat (Buffer.length (StreamOut.buffer w)
                               + StreamOut.pos w)) (StreamOut.buffer w);
         StreamOut.pos := StreamOut.pos w + Buffer.length data |}))
  /\ (StreamOut.pos w <= - Buffer.length (StreamOut.buffer w) ->
      fst (StreamOut.writeBytes data w) = Normal tt
      /\ StreamOut.buffer (snd (StreamOut.writeBytes data w))
         = data ++ StreamOut.buffer w).
Proof.
  split; intros H; rewrite writeBytes_run; unfold cut.
  - now rewrite adjustOffset_from_end by exact H.
  - rewrite adjustOffset_before_start
      by (pose proof (length_nonneg (StreamOut.buffer w)); lia).
    split; reflexivity.
Qed.

Lemma writeBytes_negative_cursor_witness :
  - Buffer.length [x0a; x0b; x0c] <= -1 < 0
  /\ StreamOut.writeBytes [xff]
       {| StreamOut.buffer := [x0a; x0b; x0c]; StreamOut.pos := -1 |}
     = (Normal tt,
        {| StreamOut.buffer := [x0a; x0b; xff; x0c]; StreamOut.pos := 0 |}).
Proof.
  assert (H : - Buffer.length [x0a; x0b; x0c] <= -1 < 0)
    by (unfold Buffer.length; simpl; lia).
  split; [exact H|].
  exact (proj1 (writeBytes_negative_cursor
                  {| StreamOut.buffer := [x0a; x0b; x0c];
                     StreamOut.pos := -1 |} [xff]) H).
Defined.

(** X3.  The writer's [skip] with a negative length throws a range error
    (the allocation of the zero bytes refuses the size) and leaves buffer
    and cursor as they were; it does not move the cursor backwards as the
    reader's [skip] does. *)
Theorem writer_skip_negative_throws (w : StreamOut.t) (length : Z) :
  length < 0 -> StreamOut.skip length w = (Throw RangeError, w).
Proof.
  intros H. unfold StreamOut.skip, bind, lift, Buffer.alloc.
  destruct (Z.ltb_spec length 0); [reflexivity|lia].
Qed.

Lemma writer_skip_negative_throws_witness :
  -1 < 0
  /\ StreamOut.skip (-1) {| StreamOut.buffer := [x0a]; StreamOut.pos := 1 |}
     = (Throw RangeError, {| StreamOut.buffer := [x0a]; StreamOut.pos := 1 |}).
Proof.
  assert (H : -1 < 0) by lia.
  split; [exact H|].
  exact (writer_skip_negative_throws
           {| StreamOut.buffer := [x0a]; StreamOut.pos := 1 |} (-1) H).
Defined.

(** X4.  The cursor contract [0 <= pos <= size()] is kept by every
    mutating method of the writer other than [seek]: whatever
    [writeBytes], a [writeX] or [skip] returns or throws, a cursor that was
    within the buffer is within the buffer afterwards. *)
Theorem writer_keeps_cursor_within_buffer (w : StreamOut.t) :
  0 <= StreamOut.pos w <= Buffer.length (StreamOut.buffer w) ->
  (forall data : Buffer.t,
     0 <= StreamOut.pos (snd (StreamOut.writeBytes data w))
       <= Buffer.length
            (StreamOut.buffer (snd (StreamOut.writeBytes data w))))
  /\ (forall (f : format) (v : Js.number),
        0 <= StreamOut.pos (snd (writeX f v w))
          <= Buffer.length (StreamOut.buffer (snd (writeX f v w))))
  /\ (forall n : Z,
        0 <= StreamOut.pos (snd (StreamOut.skip n w))
          <= Buffer.length (StreamOut.buffer (snd (StreamOut.skip n w)))).
Proof.
  intros H. split; [|split].
  - intros data. now apply writeBytes_within.
  - intros f v. destruct (writeX_cases f v w) as [E|(data & _ & E)];
      rewrite E; [exact H | now apply writeBytes_within].
  - intros n. destruct (skip_cases n w) as [[_ E]|[_ E]];
      rewrite E; [exact H | now apply writeBytes_within].
Qed.

Lemma writer_keeps_cursor_within_buffer_witness :
  0 <= 1 <= Buffer.length [x0a; x0b]
  /\ 0 <= StreamOut.pos
            (snd (writeX Uint16LE (Js.int 7)
                    {| StreamOut.buffer := [x0a; x0b]; StreamOut.pos := 1 |}))
       <= Buffer.length
            (StreamOut.buffer
               (snd (writeX Uint16LE (Js.int 7)
                       {| StreamOut.buffer := [x0a; x0b];
                          StreamOut.pos := 1 |}))).
Proof.
  assert (H : 0 <= 1 <= Buffer.length [x0a; x0b])
    by (unfold Buffer.length; simpl; lia).
  split; [exact H|].
  exact (proj1 (proj2 (writer_keeps_cursor_within_buffer
                         {| StreamOut.buffer := [x0a; x0b];
                            StreamOut.pos := 1 |} H))
           Uint16LE (Js.int 7)).
Defined.

(** ** Sequences of fields *)

Section Sequences.

Lemma layouts_cons (f : format) (v : Z) (rest : list (format * Z)) :
  layouts ((f, v) :: rest) = layout f v ++ layouts rest.
Proof. reflexivity. Qed.

Lemma writeAll_run (fields : list (format * Z)) :
  Forall in_range fields ->
  forall w : StreamOut.t,
    StreamOut.pos w = Buffer.length (StreamOut.buffer w) ->
    writeAll fields w
    = (Normal tt,
       {| StreamOut.buffer := StreamOut.buffer w ++ layouts fields;
          StreamOut.pos :=
            Buffer.length (StreamOut.buffer w ++ layouts fields) |}).
Proof.
  induction 1 as [|[f v] rest Hv _ IH]; intros w Hw.
  - destruct w as [b p]. cbn in *. rewrite app_nil_r. now subst.
  - cbn [writeAll]. unfold bind at 1.
    rewrite writeX_run, Buffer_write_layout by exact Hv.
    rewrite writeBytes_at_end by exact Hw.
    rewrite IH by reflexivity. cbn [StreamOut.buffer].
    now rewrite layouts_cons, <- app_assoc.
Qed.

Lemma readAll_run (fields : list (format * Z)) (post : Buffer.t) :
  Forall in_range fields ->
  forall pre : Buffer.t,
    readAll (map fst fields)
      {| StreamIn.buffer := pre ++ layouts fields ++ post;
         StreamIn.pos := Buffer.length pre |}
    = (Normal (map snd fields),
       {| StreamIn.buffer := pre ++ layouts fields ++ post;
          StreamIn.pos := Buffer.length (pre ++ layouts fields) |}).
Proof.
  induction 1 as [|[f v] rest Hv _ IH]; intros pre.
  - cbn. now rewrite app_nil_r.
  - cbn [map fst snd readAll]. unfold bind at 1.
    rewrite readX_run. cbn [StreamIn.buffer StreamIn.pos].
    rewrite subarray_window
      by (try apply length_nonneg; destruct f; cbn; lia).
    replace (Z.to_nat (Buffer.length pre)) with (List.length pre)
      by (unfold Buffer.length; lia).
    replace (Z.to_nat (width f)) with (List.length (layout f v))
      by (now destruct f).
    rewrite layouts_cons, <- (app_assoc (layout f v)), window_of_app.
    rewrite Buffer_read_layout by exact Hv.
    replace (Buffer.length pre + width f)
      with (Buffer.length (pre ++ layout f v))
      by (now rewrite length_app, layout_length).
    rewrite (app_assoc pre (layout f v)).
    unfold bind. rewrite IH. unfold ret.
    now rewrite <- !app_assoc.
Qed.

End Sequences.

(** X5.  Fields written one after the other on a fresh writer are read
    back one after the other by a fresh reader over [bytes()]: for every
    list of formats and integers of the formats' ranges the reads return
    the integers in order, and afterwards the reader's cursor is at the end
    and [hasData()] is false. *)
Theorem sequence_roundtrip (fields : list (format * Z)) :
  Forall in_range fields ->
  exists (out : Buffer.t) (w' : StreamOut.t),
    (_ <- writeAll fields ;; StreamOut.bytes) StreamOut.new
    = (Normal out, w')
    /\ (vs <- readAll (map fst fields) ;;
        more <- StreamIn.hasData ;;
        ret (vs, more)) (StreamIn.new out)
       = (Normal (map snd fields, false),
          {| StreamIn.buffer := out; StreamIn.pos := Buffer.length out |}).
Proof.
  intros H. unfold bind at 1. rewrite (writeAll_run fields H) by reflexivity.
  cbn [StreamOut.bytes StreamOut.buffer StreamOut.new app].
  eexists; eexists; split; [reflexivity|].
  pose proof (readAll_run fields [] H []) as E.
  cbn [app] in E. rewrite app_nil_r in E.
  change (Buffer.length []) with 0 in E.
  unfold StreamIn.new, bind at 1. cbn [StreamOut.buffer]. rewrite E.
  unfold bind, StreamIn.hasData, ret. cbn [StreamIn.pos StreamIn.buffer].
  now rewrite Z.ltb_irrefl.
Qed.

Lemma sequence_roundtrip_witness :
  Forall in_range [(Uint8, 0x14); (Int32LE, -5); (Uint16BE, 0x0fa0)]
  /\ exists (out : Buffer.t) (w' : StreamOut.t),
       (_ <- writeAll [(Uint8, 0x14); (Int32LE, -5); (Uint16BE, 0x0fa0)] ;;
        StreamOut.bytes) StreamOut.new
       = (Normal out, w')
       /\ (vs <- readAll [Uint8; Int32LE; Uint16BE] ;;
           more <- StreamIn.hasData ;;
           ret (vs, more)) (StreamIn.new out)
          = (Normal ([0x14; -5; 0x0fa0], false),
             {| StreamIn.buffer := out; StreamIn.pos := Buffer.length out |}).
Proof.
  assert (H : Forall in_range
                [(Uint8, 0x14); (Int32LE, -5); (Uint16BE, 0x0fa0)])
    by (repeat constructor; unfold in_range; simpl; lia).
  split; [exact H|].
  exact (sequence_roundtrip
           [(Uint8, 0x14); (Int32LE, -5); (Uint16BE, 0x0fa0)] H).
Defined.

(** ** Reads at a cursor within the buffer *)

Section FullReads.

Ltac arith := Z.div_mod_to_equations; lia.

Lemma octet_eq (v i : Z) (b : byte) :
  (v / 2 ^ (8 * i)) mod 2 ^ 8 = Buffer.Z_of_byte b -> octet v i = b.
Proof. intros H. unfold octet. rewrite H. apply byte_of_Z_of_byte. Qed.

(** A buffer of exactly the field's width decodes to an integer of the
    format's range, whose layout is that buffer. *)
Lemma Buffer_read_exact (f : format) (bs : Buffer.t) :
  List.length bs = Z.to_nat (width f) ->
  exists v : Z,
    Buffer_read f bs = Normal v
    /\ lowest f <= v <= highest f
    /\ layout f v = bs.
Proof.
  destruct f; cbn [width Z.to_nat Pos.to_nat Pos.iter_op Nat.add];
    destruct bs as [|b0 [|b1 [|b2 [|b3 [|b4 bs]]]]]; try discriminate;
    intros _; cbn [Buffer_read];
    unfold Buffer.readUint8, Buffer.readUint16LE, Buffer.readUint32LE,
      Buffer.readInt32LE, Buffer.readUint16BE, Buffer.readUint32BE;
    eexists; (split; [reflexivity|]);
    try (rewrite shl_24 by apply Z_of_byte_range);
    pose proof (Z_of_byte_range b0) as R0;
    try pose proof (Z_of_byte_range b1) as R1;
    try pose proof (Z_of_byte_range b2) as R2;
    try pose proof (Z_of_byte_range b3) as R3;
    cbn [lowest highest layout];
    change (2 ^ 8) with 256 in *; change (2 ^ 16) with 65536 in *;
    change (2 ^ 24) with 16777216 in *;
    change (2 ^ 32) with 4294967296 in *;
    change (2 ^ 31) with 2147483648 in *; change (2 ^ 7) with 128 in *;
    try (destruct (Z.leb_spec 128 (Buffer.Z_of_byte b3)));
    (split; [lia|]);
    repeat (f_equal; try (apply octet_eq;
      change (2 ^ (8 * 0)) with 1; change (2 ^ (8 * 1)) with 256;
      change (2 ^ (8 * 2)) with 65536; change (2 ^ (8 * 3)) with 16777216;
      change (2 ^ 8) with 256; arith)).
Qed.

Lemma writeX_fresh (f : format) (v : Z) :
  lowest f <= v <= highest f ->
  (_ <- writeX f (Js.int v) ;; StreamOut.bytes) StreamOut.new
  = (Normal (layout f v),
     {| StreamOut.buffer := layout f v; StreamOut.pos := width f |}).
Proof.
  intros H. unfold bind.
  rewrite writeX_run, Buffer_write_layout by exact H.
  rewrite writeBytes_run.
  cbn [StreamOut.new StreamOut.buffer StreamOut.pos StreamOut.bytes].
  rewrite layout_length, firstn_nil, skipn_nil, app_nil_r.
  reflexivity.
Qed.

End FullReads.

(** X6.  Raw bytes round-trip: with the cursor within the buffer, what
    [writeBytes(data)] put in is what a reader over the new buffer returns
    from [readBytes(data.length)] at the writer's old cursor. *)
Theorem writeBytes_then_readBytes (w : StreamOut.t) (data : Buffer.t) :
  0 <= StreamOut.pos w <= Buffer.length (StreamOut.buffer w) ->
  fst ((_ <- StreamIn.seek (StreamOut.pos w) ;;
        StreamIn.readBytes (Buffer.length data))
         (StreamIn.new
            (StreamOut.buffer (snd (StreamOut.writeBytes data w)))))
  = Normal data.
Proof.
  intros H. rewrite writeBytes_run, cut_inside by exact H.
  unfold bind. cbn [StreamIn.seek StreamIn.new snd StreamOut.buffer].
  rewrite readBytes_run. cbn [fst StreamIn.buffer StreamIn.pos].
  rewrite subarray_window by (try apply length_nonneg; lia).
  replace (Z.to_nat (Buffer.length data)) with (List.length data)
    by (unfold Buffer.length; lia).
  cbn [StreamIn.buffer StreamIn.new].
  now rewrite window_of_insert by (unfold Buffer.length in H; lia).
Qed.

Lemma writeBytes_then_readBytes_witness :
  0 <= 1 <= Buffer.length [x0a; x0b]
  /\ fst ((_ <- StreamIn.seek 1 ;;
           StreamIn.readBytes (Buffer.length [xff; xfe; xfd]))
            (StreamIn.new
               (StreamOut.buffer
                  (snd (StreamOut.writeBytes [xff; xfe; xfd]
                          {| StreamOut.buffer := [x0a; x0b];
                             StreamOut.pos := 1 |})))))
     = Normal [xff; xfe; xfd].
Proof.
  assert (H : 0 <= 1 <= Buffer.length [x0a; x0b])
    by (unfold Buffer.length; simpl; lia).
  split; [exact H|].
  exact (writeBytes_then_readBytes
           {| StreamOut.buffer := [x0a; x0b]; StreamOut.pos := 1 |}
           [xff; xfe; xfd] H).
Defined.

(** X7.  A read with enough bytes left never throws: with [0 <= pos] and
    [pos + w <= size()] a [readX] of width [w] returns an integer of its
    format's range and moves the cursor by [w]; and the returned integer
    determines the bytes read, since writing it back with the matching
    [writeX] on a fresh writer reproduces exactly the [w] bytes at
    [pos]. *)
Theorem full_read_decodes_field (f : format) (r : StreamIn.t) :
  0 <= StreamIn.pos r ->
  StreamIn.pos r + width f <= Buffer.length (StreamIn.buffer r) ->
  exists v : Z,
    readX f r
    = (Normal v,
       {| StreamIn.buffer := StreamIn.buffer r;
          StreamIn.pos := StreamIn.pos r + width f |})
    /\ lowest f <= v <= highest f
    /\ fst ((_ <- writeX f (Js.int v) ;; StreamOut.bytes) StreamOut.new)
       = Normal (firstn (Z.to_nat (width f))
                   (skipn (Z.to_nat (StreamIn.pos r)) (StreamIn.buffer r))).
Proof.
  intros Hp Hw.
  assert (H0 : 0 <= width f) by (destruct f; cbn; lia).
  destruct (Buffer_read_exact f
              (firstn (Z.to_nat (width f))
                 (skipn (Z.to_nat (StreamIn.pos r)) (StreamIn.buffer r))))
    as (v & Hv & Hr & Hl).
  { now apply window_length. }
  exists v. rewrite readX_run, subarray_window, Hv by lia.
  split; [reflexivity|]. split; [exact Hr|].
  rewrite writeX_fresh by exact Hr. cbn [fst]. now rewrite Hl.
Qed.

Lemma full_read_decodes_field_witness :
  0 <= 1
  /\ 1 + width Uint16LE <= Buffer.length [x14; xa0; x0f]
  /\ exists v : Z,
       readX Uint16LE
         {| StreamIn.buffer := [x14; xa0; x0f]; StreamIn.pos := 1 |}
       = (Normal v,
          {| StreamIn.buffer := [x14; xa0; x0f];
             StreamIn.pos := 1 + width Uint16LE |})
       /\ lowest Uint16LE <= v <= highest Uint16LE
       /\ fst ((_ <- writeX Uint16LE (Js.int v) ;; StreamOut.bytes)
                 StreamOut.new)
          = Normal [xa0; x0f].
Proof.
  assert (H1 : 0 <= 1) by lia.
  assert (H2 : 1 + width Uint16LE <= Buffer.length [x14; xa0; x0f])
    by (unfold Buffer.length; simpl; lia).
  split; [exact H1|]. split; [exact H2|].
  exact (full_read_decodes_field Uint16LE
           {| StreamIn.buffer := [x14; xa0; x0f]; StreamIn.pos := 1 |}
           H1 H2).
Defined.

(** ** What [hasData] does and does not guard *)

(** X8.  When [hasData()] is false every fixed-width read throws a range
    error.  When it is true and the cursor is not negative, [readUint8()]
    returns the byte under the cursor. *)
Theorem hasData_guards_reads (r : StreamIn.t) :
  (fst (StreamIn.hasData r) = Normal false ->
   forall f : format, fst (readX f r) = Throw RangeError)
  /\ (fst (StreamIn.hasData r) = Normal true ->
      0 <= StreamIn.pos r ->
      exists b : byte,
        nth_error (StreamIn.buffer r) (Z.to_nat (StreamIn.pos r)) = Some b
        /\ fst (StreamIn.readUint8 r) = Normal (Buffer.Z_of_byte b)).
Proof.
  unfold StreamIn.hasData. cbn [fst]. split.
  - intros H f. injection H as H. apply Z.ltb_ge in H.
    assert (Hw : 0 < width f) by (destruct f; cbn; lia).
    rewrite readX_run, subarray_short by lia. cbn [fst].
    apply Buffer_read_short, subarray_short_length; lia.
  - intros H Hp. injection H as H. apply Z.ltb_lt in H.
    change (StreamIn.readUint8 r) with (readX Uint8 r).
    rewrite readX_run, subarray_window by (cbn; lia). cbn [fst].
    pose proof (nth_error_skipn (Z.to_nat (StreamIn.pos r))
                  (StreamIn.buffer r) 0) as E.
    rewrite Nat.add_0_r in E.
    destruct (skipn (Z.to_nat (StreamIn.pos r)) (StreamIn.buffer r))
      as [|b rest] eqn:Es.
    + apply (f_equal (@List.length byte)) in Es.
      rewrite length_skipn in Es. unfold Buffer.length in H.
      cbn [List.length] in Es. lia.
    + exists b. split; [now rewrite <- E|reflexivity].
Qed.

Lemma hasData_guards_reads_witness :
  fst (StreamIn.hasData
         {| StreamIn.buffer := [x14; xa0]; StreamIn.pos := 2 |})
  = Normal false
  /\ fst (readX Uint16LE
            {| StreamIn.buffer := [x14; xa0]; StreamIn.pos := 2 |})
     = Throw RangeError.
Proof.
  assert (H : fst (StreamIn.hasData
                     {| StreamIn.buffer := [x14; xa0]; StreamIn.pos := 2 |})
              = Normal false) by reflexivity.
  split; [exact H|].
  exact (proj1 (hasData_guards_reads
                  {| StreamIn.buffer := [x14; xa0]; StreamIn.pos := 2 |})
           H Uint16LE).
Defined.

(** X9.  A negative cursor of the reader counts from the end of the
    buffer.  With [-size() <= pos] and [pos + w < 0] a read of width [w]
    returns what the same read returns at cursor [size() + pos].  With
    [-w <= pos < 0] the read throws a range error, bytes at the end of the
    buffer or not: the end of the slice is adjusted to an index that is not
    beyond its start.  [hasData()] is true at every negative cursor, so it
    does not announce that throw. *)
Theorem reader_negative_cursor (f : format) (r : StreamIn.t) :
  (- Buffer.length (StreamIn.buffer r) <= StreamIn.pos r ->
   StreamIn.pos r + width f < 0 ->
   fst (readX f r)
   = fst (readX f
            {| StreamIn.buffer := StreamIn.buffer r;
               StreamIn.pos :=
                 Buffer.length (StreamIn.buffer r) + StreamIn.pos r |}))
  /\ (- width f <= StreamIn.pos r < 0 ->
      readX f r
      = (Throw RangeError,
         {| StreamIn.buffer := StreamIn.buffer r;
            StreamIn.pos := StreamIn.pos r + width f |}))
  /\ (StreamIn.pos r < 0 -> fst (StreamIn.hasData r) = Normal true).
Proof.
  assert (Hw : 0 < width f) by (destruct f; cbn; lia).
  pose proof (length_nonneg (StreamIn.buffer r)) as Hb.
  split; [|split];
    [| |intros H; unfold StreamIn.hasData; cbn [fst]; f_equal;
        apply Z.ltb_lt; lia].
  - intros H1 H2. rewrite !readX_run. cbn [fst StreamIn.buffer StreamIn.pos].
    f_equal. unfold Buffer.subarray.
    rewrite (adjustOffset_from_end (StreamIn.pos r)) by lia.
    rewrite (adjustOffset_from_end (StreamIn.pos r + width f)) by lia.
    rewrite (adjustOffset_inside
               (Buffer.length (StreamIn.buffer r) + StreamIn.pos r)) by lia.
    rewrite (adjustOffset_inside
               (Buffer.length (StreamIn.buffer r) + StreamIn.pos r
                + width f)) by lia.
    now rewrite Z.add_assoc.
  - intros H. rewrite readX_run. f_equal.
    apply Buffer_read_short. rewrite subarray_length.
    unfold Buffer.adjustOffset.
    destruct (Z.eqb_spec (StreamIn.pos r + width f) 0),
      (Z.ltb_spec (StreamIn.pos r + width f) 0),
      (Z.ltb_spec 0 (StreamIn.pos r + width f
                     + Buffer.length (StreamIn.buffer r))),
      (Z.ltb_spec (StreamIn.pos r + width f)
         (Buffer.length (StreamIn.buffer r))),
      (Z.eqb_spec (StreamIn.pos r) 0),
      (Z.ltb_spec (StreamIn.pos r) 0),
      (Z.ltb_spec 0 (StreamIn.pos r + Buffer.length (StreamIn.buffer r)));
      lia.
Qed.

Lemma reader_negative_cursor_witness :
  - width Uint16LE <= -2 < 0
  /\ readX Uint16LE
       {| StreamIn.buffer := [x14; xa0; x0f]; StreamIn.pos := -2 |}
     = (Throw RangeError,
        {| StreamIn.buffer := [x14; xa0; x0f]; StreamIn.pos := 0 |}).
Proof.
  assert (H : - width Uint16LE <= -2 < 0) by (simpl; lia).
  split; [exact H|].
  exact (proj1 (proj2 (reader_negative_cursor Uint16LE
                         {| StreamIn.buffer := [x14; xa0; x0f];
                            StreamIn.pos := -2 |})) H).
Defined.

(** X10.  The reader's [readBytes] at a cursor that is not negative, for a
    length that is not negative: the view is the [length] bytes from [pos],
    or as many as there are, so its length is the smaller of [length] and
    what is left after [pos]; the buffer stays as it was. *)
Theorem readBytes_returns_window (r : StreamIn.t) (length : Z) :
  0 <= StreamIn.pos r -> 0 <= length ->
  exists view : Buffer.t,
    fst (StreamIn.readBytes length r) = Normal view
    /\ StreamIn.buffer (snd (StreamIn.readBytes length r))
       = StreamIn.buffer r
    /\ view = firstn (Z.to_nat length)
                (skipn (Z.to_nat (StreamIn.pos r)) (StreamIn.buffer r))
    /\ Buffer.length view
       = Z.min length
           (Z.max 0 (Buffer.length (StreamIn.buffer r) - StreamIn.pos r))
    /\ forall i : nat,
         (i < List.length view)%nat ->
         nth_error view i
         = nth_error (StreamIn.buffer r) (Z.to_nat (StreamIn.pos r) + i).
Proof.
  intros Hp Hl. eexists. rewrite readBytes_run.
  cbn [fst snd StreamIn.buffer]. split; [reflexivity|].
  split; [reflexivity|].
  rewrite subarray_window by lia. split; [reflexivity|]. split.
  - unfold Buffer.length. rewrite length_firstn, length_skipn. lia.
  - intros i Hi. rewrite length_firstn in Hi.
    rewrite nth_error_firstn.
    destruct (Nat.ltb_spec i (Z.to_nat length)); [|lia].
    apply nth_error_skipn.
Qed.

Lemma readBytes_returns_window_witness :
  0 <= 1 /\ 0 <= 5
  /\ exists view : Buffer.t,
       fst (StreamIn.readBytes 5
              {| StreamIn.buffer := [x14; xa0; x0f]; StreamIn.pos := 1 |})
       = Normal view
       /\ StreamIn.buffer
            (snd (StreamIn.readBytes 5
                    {| StreamIn.buffer := [x14; xa0; x0f];
                       StreamIn.pos := 1 |}))
          = [x14; xa0; x0f]
       /\ view = [xa0; x0f]
       /\ Buffer.length view
          = Z.min 5 (Z.max 0 (Buffer.length [x14; xa0; x0f] - 1))
       /\ forall i : nat,
            (i < List.length view)%nat ->
            nth_error view i
            = nth_error [x14; xa0; x0f] (Z.to_nat 1 + i).
Proof.
  assert (H1 : 0 <= 1) by lia. assert (H2 : 0 <= 5) by lia.
  split; [exact H1|]. split; [exact H2|].
  exact (readBytes_returns_window
           {| StreamIn.buffer := [x14; xa0; x0f]; StreamIn.pos := 1 |}
           5 H1 H2).
Defined.

(** ** Values that are not integers *)

Section Truncation.

Lemma store_trunc (q : Q) :
  Buffer.store (Js.Num q) = Buffer.store (Js.int (Js.trunc q)).
Proof. unfold Buffer.store, Js.ToUint8, Js.int. now rewrite trunc_int. Qed.

Lemma ushr_trunc (q : Q) (k : Z) :
  Js.ushr (Js.Num q) k = Js.ushr (Js.int (Js.trunc q)) k.
Proof. unfold Js.ushr, Js.ToUint32, Js.int. now rewrite trunc_int. Qed.

(** Rounding towards zero stays between integer bounds. *)
Lemma trunc_between (q : Q) (min max : Z) :
  (inject_Z min <= q)%Q -> (q <= inject_Z max)%Q ->
  min <= Js.trunc q <= max.
Proof.
  destruct q as [n d]. unfold Qle, Js.trunc. cbn [Qnum Qden inject_Z].
  rewrite !Z.mul_1_r. intros H1 H2.
  pose proof (Z.quot_rem' n (Z.pos d)) as E.
  pose proof (Z.rem_bound_abs n (Z.pos d) ltac:(lia)) as R.
  set (D := Z.pos d) in *. set (t := n ÷ D) in *.
  assert (HD : 0 < D) by (subst D; lia).
  split.
  - destruct (Z.lt_ge_cases t min) as [C|C]; [exfalso|lia].
    assert ((t + 1) * D <= min * D)
      by (apply Z.mul_le_mono_nonneg_r; lia).
    lia.
  - destruct (Z.lt_ge_cases max t) as [C|C]; [exfalso|lia].
    assert ((max + 1) * D <= t * D)
      by (apply Z.mul_le_mono_nonneg_r; lia).
    lia.
Qed.

Lemma within_bounds (q : Q) (min max : Z) :
  ~ exceeds (Js.Num q) min max ->
  (inject_Z min <= q)%Q /\ (q <= inject_Z max)%Q.
Proof.
  cbn [exceeds]. intros H.
  split; apply Qnot_lt_le; intros C; apply H; auto.
Qed.

Lemma Buffer_write_trunc (f : format) (b : Buffer.t) (q : Q) :
  ~ exceeds (Js.Num q) (lowest f) (highest f) ->
  Buffer_write f b (Js.Num q) = Buffer_write f b (Js.int (Js.trunc q)).
Proof.
  intros H.
  assert (H1 : Buffer.checkInt (Js.Num q) (lowest f) (highest f) = false).
  { apply not_true_is_false. now rewrite checkInt_exceeds. }
  assert (H2 : Buffer.checkInt (Js.int (Js.trunc q)) (lowest f) (highest f)
               = false).
  { apply checkInt_in_range. apply within_bounds in H.
    now apply trunc_between. }
  destruct f; cbn [Buffer_write];
    unfold Buffer.writeUint8, Buffer.writeUint16LE, Buffer.writeUint32LE,
      Buffer.writeInt32LE, Buffer.writeUint16BE, Buffer.writeUint32BE,
      Buffer.writeU_Int8, Buffer.writeU_Int16LE, Buffer.writeU_Int32LE,
      Buffer.writeU_Int16BE, Buffer.writeU_Int32BE;
    (match goal with
     | |- (if ?c then _ else _) = (if ?c' then _ else _) =>
         replace c with false by (symmetry; exact H1);
         replace c' with false by (symmetry; exact H2)
     end);
    now rewrite ?store_trunc, ?ushr_trunc.
Qed.

End Truncation.

(** X11.  A value that is not an integer but lies within the bounds of the
    format is written as the integer it truncates to, rounding towards
    zero (so [writeUint8(1.5)] writes what [writeUint8(1)] writes, and
    [writeInt32LE(-0.5)] what [writeInt32LE(0)] writes); that integer is in
    the format's range.  [NaN] is written as 0. *)
Theorem write_truncates_towards_zero (f : format) (w : StreamOut.t) :
  (forall q : Q,
     ~ exceeds (Js.Num q) (lowest f) (highest f) ->
     writeX f (Js.Num q) w = writeX f (Js.int (Js.trunc q)) w
     /\ lowest f <= Js.trunc q <= highest f)
  /\ writeX f Js.NaN w = writeX f (Js.int 0) w.
Proof.
  split.
  - intros q H. split.
    + now rewrite !writeX_run, Buffer_write_trunc.
    + apply within_bounds in H. now apply trunc_between.
  - destruct f; reflexivity.
Qed.

Lemma write_truncates_towards_zero_witness :
  ~ exceeds (Js.Num (-3 # 2)) (lowest Int32LE) (highest Int32LE)
  /\ writeX Int32LE (Js.Num (-3 # 2)) StreamOut.new
     = writeX Int32LE (Js.int (-1)) StreamOut.new.
Proof.
  assert (H : ~ exceeds (Js.Num (-3 # 2)) (lowest Int32LE) (highest Int32LE)).
  { cbn [exceeds]. unfold Qlt. cbn. intros [C|C]; lia. }
  split; [exact H|].
  exact (proj1 (proj1 (write_truncates_towards_zero Int32LE StreamOut.new)
                  (-3 # 2)%Q H)).
Defined.

(** ** Writes that compose *)

(** X12.  Writing at the same place twice puts the later data in front of
    the earlier: with the cursor within the buffer, [writeBytes(a)], then
    [seek] back to the old cursor, then [writeBytes(b)] leaves
    [buffer[0:pos] ++ b ++ a ++ buffer[pos:]] (a field written first and
    its prefix inserted afterwards), and the cursor after [b]. *)
Theorem seek_back_inserts_before (w : StreamOut.t) (a b : Buffer.t) :
  0 <= StreamOut.pos w <= Buffer.length (StreamOut.buffer w) ->
  (_ <- StreamOut.writeBytes a ;;
   _ <- StreamOut.seek (StreamOut.pos w) ;;
   StreamOut.writeBytes b) w
  = (Normal tt,
     {| StreamOut.buffer :=
          firstn (Z.to_nat (StreamOut.pos w)) (StreamOut.buffer w)
          ++ b ++ a
          ++ skipn (Z.to_nat (StreamOut.pos w)) (StreamOut.buffer w);
        StreamOut.pos := StreamOut.pos w + Buffer.length b |}).
Proof.
  intros H. unfold bind. rewrite writeBytes_run, cut_inside by exact H.
  cbn [StreamOut.seek StreamOut.buffer].
  rewrite writeBytes_run. cbn [StreamOut.buffer StreamOut.pos].
  set (p := Z.to_nat (StreamOut.pos w)).
  set (buf := StreamOut.buffer w) in *.
  assert (Hp : List.length (firstn p buf) = p).
  { apply firstn_length_le. unfold Buffer.length in H. lia. }
  assert (Hc : cut (firstn p buf ++ a ++ skipn p buf) (StreamOut.pos w) = p).
  { apply cut_inside. rewrite length_app. unfold Buffer.length at 1.
    rewrite Hp. pose proof (length_nonneg (a ++ skipn p buf)). lia. }
  rewrite Hc.
  rewrite firstn_app, skipn_app, Hp, Nat.sub_diag.
  cbn [firstn skipn].
  rewrite firstn_all2, skipn_all2, app_nil_r by lia.
  reflexivity.
Qed.

Lemma seek_back_inserts_before_witness :
  0 <= 1 <= Buffer.length [x0a; x0b]
  /\ (_ <- StreamOut.writeBytes [x01; x02] ;;
      _ <- StreamOut.seek 1 ;;
      StreamOut.writeBytes [xff])
       {| StreamOut.buffer := [x0a; x0b]; StreamOut.pos := 1 |}
     = (Normal tt,
        {| StreamOut.buffer := [x0a; xff; x01; x02; x0b];
           StreamOut.pos := 2 |}).
Proof.
  assert (H : 0 <= 1 <= Buffer.length [x0a; x0b])
    by (unfold Buffer.length; simpl; lia).
  split; [exact H|].
  exact (seek_back_inserts_before
           {| StreamOut.buffer := [x0a; x0b]; StreamOut.pos := 1 |}
           [x01; x02] [xff] H).
Defined.



(** ** Signed and unsigned 32-bit fields *)

(** X14.  [writeInt32LE] writes two's complement: for an integer [v] of the
    signed 32-bit range it writes the bytes [writeUint32LE] writes for
    [v mod 2^32]. *)
Theorem writeInt32LE_is_twos_complement (v : Z) (w : StreamOut.t) :
  - 2 ^ 31 <= v <= 2 ^ 31 - 1 ->
  StreamOut.writeInt32LE (Js.int v) w
  = StreamOut.writeUint32LE (Js.int (v mod 2 ^ 32)) w.
Proof.
  intros H.
  change (StreamOut.writeInt32LE (Js.int v) w)
    with (writeX Int32LE (Js.int v) w).
  change (StreamOut.writeUint32LE (Js.int (v mod 2 ^ 32)) w)
    with (writeX Uint32LE (Js.int (v mod 2 ^ 32)) w).
  rewrite !writeX_run.
  rewrite (Buffer_write_layout Int32LE v) by exact H.
  rewrite (Buffer_write_layout Uint32LE (v mod 2 ^ 32))
    by (cbn [lowest highest]; pose proof (Z.mod_pos_bound v (2 ^ 32)); lia).
  cbn [layout]. unfold octet.
  change (2 ^ (8 * 0)) with 1. change (2 ^ (8 * 1)) with 256.
  change (2 ^ (8 * 2)) with 65536. change (2 ^ (8 * 3)) with 16777216.
  change (2 ^ 32) with 4294967296. change (2 ^ 8) with 256.
  replace ((v mod 4294967296 / 1) mod 256) with ((v / 1) mod 256)
    by (Z.div_mod_to_equations; lia).
  replace ((v mod 4294967296 / 256) mod 256) with ((v / 256) mod 256)
    by (Z.div_mod_to_equations; lia).
  replace ((v mod 4294967296 / 65536) mod 256) with ((v / 65536) mod 256)
    by (Z.div_mod_to_equations; lia).
  replace ((v mod 4294967296 / 16777216) mod 256)
    with ((v / 16777216) mod 256)
    by (Z.div_mod_to_equations; lia).
  reflexivity.
Qed.

Lemma writeInt32LE_is_twos_complement_witness :
  - 2 ^ 31 <= -1 <= 2 ^ 31 - 1
  /\ StreamOut.writeInt32LE (Js.int (-1)) StreamOut.new
     = StreamOut.writeUint32LE (Js.int (-1 mod 2 ^ 32)) StreamOut.new.
Proof.
  assert (H : - 2 ^ 31 <= -1 <= 2 ^ 31 - 1) by lia.
  split; [exact H|].
  exact (writeInt32LE_is_twos_complement (-1) StreamOut.new H).
Defined.

(** X15.  [readInt32LE] is the signed reading of what [readUint32LE] reads:
    in every reader state the two either both throw, or return [u] and
    [u - 2^32] when [u >= 2^31] and the same [u] otherwise; both leave the
    same reader behind. *)
Theorem readInt32LE_is_signed_readUint32LE (r : StreamIn.t) :
  snd (StreamIn.readInt32LE r) = snd (StreamIn.readUint32LE r)
  /\ match fst (StreamIn.readUint32LE r) with
     | Normal u =>
         0 <= u <= 2 ^ 32 - 1
         /\ fst (StreamIn.readInt32LE r)
            = Normal (if 2 ^ 31 <=? u then u - 2 ^ 32 else u)
     | Throw e => fst (StreamIn.readInt32LE r) = Throw e
     end.
Proof.
  change (StreamIn.readInt32LE r) with (readX Int32LE r).
  change (StreamIn.readUint32LE r) with (readX Uint32LE r).
  rewrite !readX_run. cbn [fst snd width]. split; [reflexivity|].
  destruct (Buffer.subarray _ _ _) as [|b0 [|b1 [|b2 [|b3 bs]]]];
    cbn [Buffer_read Buffer.readUint32LE Buffer.readInt32LE];
    try reflexivity.
  rewrite shl_24 by apply Z_of_byte_range.
  pose proof (Z_of_byte_range b0). pose proof (Z_of_byte_range b1).
  pose proof (Z_of_byte_range b2). pose proof (Z_of_byte_range b3).
  change (2 ^ 8) with 256 in *. change (2 ^ 16) with 65536 in *.
  change (2 ^ 24) with 16777216 in *. change (2 ^ 32) with 4294967296 in *.
  change (2 ^ 31) with 2147483648 in *. change (2 ^ 7) with 128 in *.
  split; [lia|]. f_equal.
  destruct (Z.leb_spec 128 (Buffer.Z_of_byte b3)),
    (Z.leb_spec 2147483648
       (Buffer.Z_of_byte b0 + Buffer.Z_of_byte b1 * 256
        + Buffer.Z_of_byte b2 * 65536 + Buffer.Z_of_byte b3 * 16777216));
    lia.
Qed.

(** ** Lengths that are not positive *)

(** X16.  The reader's [readBytes] with a length that is zero or negative,
    at a cursor that stays non-negative ([0 <= pos + length <= pos]):
    nothing throws, the view is empty, and the cursor moves back by the
    length, as with [skip]. *)
Theorem readBytes_nonpositive_length (r : StreamIn.t) (length : Z) :
  length <= 0 -> 0 <= StreamIn.pos r + length ->
  StreamIn.readBytes length r = (_ <- StreamIn.skip length ;; ret []) r.
Proof.
  intros Hl Hp. rewrite readBytes_run.
  unfold bind, StreamIn.skip, ret. f_equal. f_equal.
  apply length_zero_iff_nil.
  pose proof (subarray_length (StreamIn.buffer r) (StreamIn.pos r)
                (StreamIn.pos r + length)) as E.
  pose proof (length_nonneg (StreamIn.buffer r)) as Hb.
  unfold Buffer.adjustOffset in E.
  unfold Buffer.length at 1 in E.
  destruct (Z.eqb_spec (StreamIn.pos r + length) 0),
    (Z.ltb_spec (StreamIn.pos r + length) 0),
    (Z.ltb_spec (StreamIn.pos r + length)
       (Buffer.length (StreamIn.buffer r))),
    (Z.eqb_spec (StreamIn.pos r) 0),
    (Z.ltb_spec (StreamIn.pos r) 0),
    (Z.ltb_spec (StreamIn.pos r) (Buffer.length (StreamIn.buffer r)));
    lia.
Qed.

Lemma readBytes_nonpositive_length_witness :
  -2 <= 0 /\ 0 <= 3 + -2
  /\ StreamIn.readBytes (-2)
       {| StreamIn.buffer := [x14; xa0; x0f]; StreamIn.pos := 3 |}
     = (Normal [], {| StreamIn.buffer := [x14; xa0; x0f]; StreamIn.pos := 1 |}).
Proof.
  assert (H1 : -2 <= 0) by lia. assert (H2 : 0 <= 3 + -2) by lia.
  split; [exact H1|]. split; [exact H2|].
  exact (readBytes_nonpositive_length
           {| StreamIn.buffer := [x14; xa0; x0f]; StreamIn.pos := 3 |}
           (-2) H1 H2).
Defined.
